(** * Link shortener: the [links] table and the short-code allocator

    The development has three layers.

    - [links] and [links_0000]: the column declarations of the table, as
      written in [db/schema.ts] (drizzle-orm builders) and in the generated
      SQL migration ([CREATE TABLE "links"]).
    - [insert], [update], [delete]: what a PostgreSQL store does with one
      statement against a table declared that way (defaults, varchar
      coercion, NOT NULL, primary key and unique constraints).
    - [seedExampleLinks]: the seed script; [allocate]: the short-code
      allocator of the design document, on top of [insert].  The repository
      contains the table and the seed script but no allocator: the
      definitions of the allocator follow the design document and say so.

    Strings are [string]; one [ascii] stands for one character (the
    length of a [varchar(n)] counts characters).  Timestamps are [Z].
    Random generators, clocks and the reachability of the store are streams
    in an environment [Env]; the table, the log of statements sent and the
    read positions of the streams form the state [World]. *)

From Stdlib Require Import String Ascii List ZArith Bool Lia Arith PeanoNat.
From Stdlib Require Import Permutation.
Import ListNotations.
Local Open Scope string_scope.
Local Open Scope list_scope.

Set Implicit Arguments.

(* ================================================================== *)
(** * 1. Column declarations *)
(* ================================================================== *)

Inductive SqlType : Type :=
| SqlText
| SqlVarchar (length : nat)
| SqlTimestamp (withTimezone : bool).

(** One column of a table, with the modifiers a drizzle builder chain or a
    SQL column definition can put on it.  [col_default] is the DEFAULT
    expression and [col_onUpdate] the [$onUpdate] hook; both are evaluated
    with the time of the statement. *)
Record Column (A : Type) : Type := mkColumn {
  col_name : string;
  col_type : SqlType;
  col_notNull : bool;
  col_primaryKey : bool;
  col_unique : bool;
  col_default : option (Z -> A);
  col_onUpdate : option (Z -> A)
}.

Definition text (name : string) : Column string :=
  mkColumn name SqlText false false false None None.

Definition varchar (name : string) (length : nat) : Column string :=
  mkColumn name (SqlVarchar length) false false false None None.

Definition timestamp (name : string) (withTimezone : bool) : Column Z :=
  mkColumn name (SqlTimestamp withTimezone) false false false None None.

Definition notNull {A} (c : Column A) : Column A :=
  mkColumn (col_name c) (col_type c) true (col_primaryKey c) (col_unique c)
           (col_default c) (col_onUpdate c).

(** drizzle's [.primaryKey()] also marks the column NOT NULL, as PostgreSQL
    does for a PRIMARY KEY column. *)
Definition primaryKey {A} (c : Column A) : Column A :=
  mkColumn (col_name c) (col_type c) true true (col_unique c)
           (col_default c) (col_onUpdate c).

Definition unique {A} (c : Column A) : Column A :=
  mkColumn (col_name c) (col_type c) (col_notNull c) (col_primaryKey c) true
           (col_default c) (col_onUpdate c).

Definition defaultNow (c : Column Z) : Column Z :=
  mkColumn (col_name c) (col_type c) (col_notNull c) (col_primaryKey c)
           (col_unique c) (Some (fun now => now)) (col_onUpdate c).

(** A plain (non-unique) btree index: name and indexed column. *)
Record Index : Type := mkIndex { idx_name : string; idx_on : string }.

(** The shape of the [links] table: six columns and its indexes. *)
Record Table : Type := mkTable {
  tbl_name : string;
  id : Column string;
  userId : Column string;
  url : Column string;
  shortCode : Column string;
  createdAt : Column Z;
  updatedAt : Column Z;
  tbl_indexes : list Index
}.

(** [db/schema.ts]: [export const links = pgTable('links', {...})]. *)
Definition links : Table := {|
  tbl_name := "links";
  id := primaryKey (text "id");
  userId := notNull (text "user_id");
  url := notNull (text "url");
  shortCode := unique (notNull (varchar "short_code" 20));
  createdAt := notNull (defaultNow (timestamp "created_at" true));
  updatedAt := notNull (defaultNow (timestamp "updated_at" true));
  tbl_indexes := [ mkIndex "user_id_idx" "user_id";
                   mkIndex "short_code_idx" "short_code" ]
|}.

(** The generated migration: [CREATE TABLE "links" (...)], with
    ["short_code" text NOT NULL] and the table constraint
    [CONSTRAINT "links_short_code_unique" UNIQUE("short_code")]. *)
Definition links_0000 : Table := {|
  tbl_name := "links";
  id := notNull (primaryKey (text "id"));
  userId := notNull (text "user_id");
  url := notNull (text "url");
  shortCode := unique (notNull (text "short_code"));
  createdAt := notNull (defaultNow (timestamp "created_at" true));
  updatedAt := notNull (defaultNow (timestamp "updated_at" true));
  tbl_indexes := [ mkIndex "user_id_idx" "user_id";
                   mkIndex "short_code_idx" "short_code" ]
|}.

(** The table is declared in one of these two ways. *)
Definition declared (t : Table) : Prop := t = links \/ t = links_0000.

(* ================================================================== *)
(** * 2. Rows and statements *)
(* ================================================================== *)

(** A stored row: one cell per column, [None] is SQL NULL. *)
Record Row : Type := mkRow {
  r_id : option string;
  r_userId : option string;
  r_url : option string;
  r_shortCode : option string;
  r_createdAt : option Z;
  r_updatedAt : option Z
}.

(** The values of an INSERT, or the [set] of an UPDATE: [None] is a column
    the statement does not mention.  ([NewLink] in [db/schema.ts]; the
    TypeScript type makes the four text columns required, the SQL statement
    does not.) *)
Record NewLink : Type := mkNewLink {
  n_id : option string;
  n_userId : option string;
  n_url : option string;
  n_shortCode : option string;
  n_createdAt : option Z;
  n_updatedAt : option Z
}.

Definition filled {A} (v : option A) : bool :=
  match v with Some _ => true | None => false end.

(** [Link] in [db/schema.ts] ([$inferSelect]): a row whose NOT NULL columns
    are all filled. *)
Definition isLink (t : Table) (r : Row) : bool :=
  let present {A B} (c : Column A) (v : option B) :=
      negb (col_notNull c) || filled v in
  present (id t) (r_id r) && present (userId t) (r_userId r)
  && present (url t) (r_url r) && present (shortCode t) (r_shortCode r)
  && present (createdAt t) (r_createdAt r)
  && present (updatedAt t) (r_updatedAt r).

(** Errors the store reports for a statement (PostgreSQL SQLSTATE). *)
Inductive StoreError : Type :=
| NotNullViolation (column : string)              (* 23502 *)
| UniqueViolation (constraint : string)           (* 23505 *)
| StringDataRightTruncation (column : string).    (* 22001 *)

Inductive Outcome (A : Type) : Type :=
| Done (a : A)
| Rejected (e : StoreError).
Arguments Rejected {A} e.

Definition bind {A B} (m : Outcome A) (f : A -> Outcome B) : Outcome B :=
  match m with
  | Done a => f a
  | Rejected e => Rejected e
  end.

Notation "x <- m ;; k" := (bind m (fun x => k))
  (at level 61, m at next level, right associativity).
Notation "m ;;; k" := (bind m (fun _ => k))
  (at level 61, right associativity).

(** ** Cell-level checks *)

Definition allSpaces (s : string) : bool :=
  forallb (fun c => Ascii.eqb c " "%char) (list_ascii_of_string s).

(** Assignment to a column of a character type.  [varchar(n)] refuses a
    longer string, unless the excess is all spaces, which it cuts off. *)
Definition coerce (c : Column string) (v : option string)
  : Outcome (option string) :=
  match v, col_type c with
  | Some s, SqlVarchar n =>
      if Nat.leb (String.length s) n then Done (Some s)
      else if allSpaces (substring n (String.length s - n) s)
           then Done (Some (substring 0 n s))
           else Rejected (StringDataRightTruncation (col_name c))
  | _, _ => Done v
  end.

(** The value of a cell of a new row: the supplied value, else the default
    of the column, else NULL. *)
Definition resolve {A} (c : Column A) (now : Z) (v : option A) : option A :=
  match v with
  | Some a => Some a
  | None => option_map (fun f => f now) (col_default c)
  end.

Definition checkNotNull {A B} (c : Column A) (v : option B) : Outcome unit :=
  if col_notNull c
  then match v with
       | Some _ => Done tt
       | None => Rejected (NotNullViolation (col_name c))
       end
  else Done tt.

(** Name of the constraint behind a unique index: [<table>_pkey] for the
    primary key, [<table>_<column>_unique] for a unique column. *)
Definition constraintName {A} (t : Table) (c : Column A) : string :=
  if col_primaryKey c then String.append (tbl_name t) "_pkey"
  else String.append (tbl_name t)
         (String.append "_" (String.append (col_name c) "_unique")).

Definition cellEqb {A} (eqb : A -> A -> bool) (x : A) (o : option A) : bool :=
  match o with
  | Some y => eqb x y
  | None => false
  end.

(** A unique index refuses a non-NULL value that another row holds; NULLs
    never conflict. *)
Definition checkUnique {A} (eqb : A -> A -> bool) (t : Table) (c : Column A)
           (others : list (option A)) (v : option A) : Outcome unit :=
  if col_primaryKey c || col_unique c
  then match v with
       | Some x => if existsb (cellEqb eqb x) others
                   then Rejected (UniqueViolation (constraintName t c))
                   else Done tt
       | None => Done tt
       end
  else Done tt.

(** ** INSERT *)

(** [db.insert(links).values(v)] at time [now] against the rows [rows] of a
    table declared as [t]:  defaults, then assignment coercion, then the NOT
    NULL constraints, then the unique indexes (primary key first); the new
    row goes at the end.

    The checks are those of the table declaration.  What the column types
    themselves refuse before any constraint is looked at (a text value with
    the zero character, a timestamp outside the range of the type) is not
    checked here: [Done] says that the declaration lets the row in. *)
Definition insert (t : Table) (now : Z) (rows : list Row) (v : NewLink)
  : Outcome (list Row * Row) :=
  cid <- coerce (id t) (resolve (id t) now (n_id v)) ;;
  cuser <- coerce (userId t) (resolve (userId t) now (n_userId v)) ;;
  curl <- coerce (url t) (resolve (url t) now (n_url v)) ;;
  ccode <- coerce (shortCode t) (resolve (shortCode t) now (n_shortCode v)) ;;
  let ccreated := resolve (createdAt t) now (n_createdAt v) in
  let cupdated := resolve (updatedAt t) now (n_updatedAt v) in
  checkNotNull (id t) cid ;;;
  checkNotNull (userId t) cuser ;;;
  checkNotNull (url t) curl ;;;
  checkNotNull (shortCode t) ccode ;;;
  checkNotNull (createdAt t) ccreated ;;;
  checkNotNull (updatedAt t) cupdated ;;;
  checkUnique String.eqb t (id t) (map r_id rows) cid ;;;
  checkUnique String.eqb t (userId t) (map r_userId rows) cuser ;;;
  checkUnique String.eqb t (url t) (map r_url rows) curl ;;;
  checkUnique String.eqb t (shortCode t) (map r_shortCode rows) ccode ;;;
  checkUnique Z.eqb t (createdAt t) (map r_createdAt rows) ccreated ;;;
  checkUnique Z.eqb t (updatedAt t) (map r_updatedAt rows) cupdated ;;;
  let r := mkRow cid cuser curl ccode ccreated cupdated in
  Done (rows ++ [r], r).

(** ** DELETE *)

(** [db.delete(links).where(eq(links.id, linkId))]. *)
Definition delete (rows : list Row) (linkId : string) : list Row :=
  filter (fun r => negb (cellEqb String.eqb linkId (r_id r))) rows.

(** ** UPDATE *)

(** The new value of a cell under UPDATE: the value of [set] if the column
    is mentioned, else what the [$onUpdate] hook of the column gives, else
    the old value. *)
Definition assign {A} (c : Column A) (now : Z) (old new : option A)
  : option A :=
  match new with
  | Some a => Some a
  | None => match col_onUpdate c with
            | Some f => Some (f now)
            | None => old
            end
  end.

Definition updateRow (t : Table) (now : Z) (set : NewLink) (r : Row)
  : Outcome Row :=
  cid <- coerce (id t) (assign (id t) now (r_id r) (n_id set)) ;;
  cuser <- coerce (userId t)
             (assign (userId t) now (r_userId r) (n_userId set)) ;;
  curl <- coerce (url t) (assign (url t) now (r_url r) (n_url set)) ;;
  ccode <- coerce (shortCode t)
             (assign (shortCode t) now (r_shortCode r) (n_shortCode set)) ;;
  Done (mkRow cid cuser curl ccode
          (assign (createdAt t) now (r_createdAt r) (n_createdAt set))
          (assign (updatedAt t) now (r_updatedAt r) (n_updatedAt set))).

(** Rows are rewritten one after the other; each new version is checked
    against the rows already rewritten and the rows still to come. *)
Fixpoint updateRows (t : Table) (now : Z) (linkId : string) (set : NewLink)
         (before after : list Row) : Outcome (list Row) :=
  match after with
  | [] => Done before
  | r :: rest =>
      if cellEqb String.eqb linkId (r_id r)
      then
        r' <- updateRow t now set r ;;
        let others := before ++ rest in
        checkUnique String.eqb t (id t) (map r_id others) (r_id r') ;;;
        checkUnique String.eqb t (userId t) (map r_userId others)
                    (r_userId r') ;;;
        checkUnique String.eqb t (url t) (map r_url others) (r_url r') ;;;
        checkUnique String.eqb t (shortCode t) (map r_shortCode others)
                    (r_shortCode r') ;;;
        checkUnique Z.eqb t (createdAt t) (map r_createdAt others)
                    (r_createdAt r') ;;;
        checkUnique Z.eqb t (updatedAt t) (map r_updatedAt others)
                    (r_updatedAt r') ;;;
        updateRows t now linkId set (before ++ [r']) rest
      else updateRows t now linkId set (before ++ [r]) rest
  end.

(** [db.update(links).set(set).where(eq(links.id, linkId))], as the
    statement that reaches the store.  A [set] that mentions no column is
    not such a statement (the query builder throws before sending
    anything), and values the column types refuse are not checked, as for
    [insert]. *)
Definition update (t : Table) (now : Z) (rows : list Row) (linkId : string)
           (set : NewLink) : Outcome (list Row) :=
  updateRows t now linkId set [] rows.

(* ================================================================== *)
(** * 3. The application's view of the store *)
(* ================================================================== *)

(** What the code cannot decide by itself: how the database was set up, the
    URL syntax check, the random generators, whether a call reaches the
    store, and the clocks.  Generators and clocks are streams; the [k]-th
    call reads position [k]. *)
Record Env : Type := mkEnv {
  env_table : Table;                  (* how the [links] table is declared *)
  isValidUrl : string -> bool;        (* syntactically valid absolute URL *)
  nanoid : nat -> string;             (* [nanoid()] *)
  generateShortCode : nat -> string;  (* random candidate code *)
  date : nat -> Z;                    (* [new Date()] *)
  reachable : nat -> bool;            (* the [k]-th call reaches the store *)
  dbNow : nat -> Z                    (* [now()] at the store, [k]-th call *)
}.

Inductive Statement : Type :=
| Insert (values : NewLink)
| Update (linkId : string) (set : NewLink)
| Delete (linkId : string).

(** The rows of the table, the statements sent to the store so far (oldest
    first), and how far each generator and the clock have been read. *)
Record World : Type := mkWorld {
  rows : list Row;
  log : list Statement;
  ids : nat;
  codes : nat;
  dates : nat
}.

Definition emptyWorld : World := mkWorld [] [] 0 0 0.

(** What the caller of the store sees. *)
Inductive Reply (A : Type) : Type :=
| Returned (a : A)
| Refused (e : StoreError)
| Unreachable.
Arguments Refused {A} e.
Arguments Unreachable {A}.

(** One call to the store.  It is one atomic step: the statement either
    takes effect as a whole or leaves the rows as they were. *)
Definition sendInsert (E : Env) (w : World) (v : NewLink) : Reply Row * World :=
  let k := List.length (log w) in
  let sent := log w ++ [Insert v] in
  if reachable E k
  then match insert (env_table E) (dbNow E k) (rows w) v with
       | Done (rows', r) =>
           (Returned r, mkWorld rows' sent (ids w) (codes w) (dates w))
       | Rejected e =>
           (Refused e, mkWorld (rows w) sent (ids w) (codes w) (dates w))
       end
  else (Unreachable, mkWorld (rows w) sent (ids w) (codes w) (dates w)).

Definition sendUpdate (E : Env) (w : World) (linkId : string) (set : NewLink)
  : Reply unit * World :=
  let k := List.length (log w) in
  let sent := log w ++ [Update linkId set] in
  if reachable E k
  then match update (env_table E) (dbNow E k) (rows w) linkId set with
       | Done rows' =>
           (Returned tt, mkWorld rows' sent (ids w) (codes w) (dates w))
       | Rejected e =>
           (Refused e, mkWorld (rows w) sent (ids w) (codes w) (dates w))
       end
  else (Unreachable, mkWorld (rows w) sent (ids w) (codes w) (dates w)).

Definition sendDelete (E : Env) (w : World) (linkId : string)
  : Reply unit * World :=
  let k := List.length (log w) in
  let sent := log w ++ [Delete linkId] in
  if reachable E k
  then (Returned tt,
        mkWorld (delete (rows w) linkId) sent (ids w) (codes w) (dates w))
  else (Unreachable, mkWorld (rows w) sent (ids w) (codes w) (dates w)).

Definition send (E : Env) (w : World) (s : Statement) : World :=
  match s with
  | Insert v => snd (sendInsert E w v)
  | Update linkId set => snd (sendUpdate E w linkId set)
  | Delete linkId => snd (sendDelete E w linkId)
  end.

(* ================================================================== *)
(** * 4. The seed script *)
(* ================================================================== *)

(** One entry of [exampleLinks]: [{ url, shortCode }]. *)
Record ExampleLink : Type := mkExample {
  ex_url : string;
  ex_shortCode : string
}.

(** [const userId] of the seed script. *)
Definition seedUserId : string := "user_39muGGbHjuaOt6ll2so3UuE2c8y".

Definition exampleLinks : list ExampleLink := [
  mkExample "https://github.com/facebook/react" "react-gh";
  mkExample "https://nextjs.org/docs" "next-docs";
  mkExample "https://tailwindcss.com/docs/installation" "tw-install";
  mkExample "https://www.typescriptlang.org/docs/" "ts-docs";
  mkExample "https://drizzle.team/docs/overview" "drizzle-ov";
  mkExample "https://ui.shadcn.com/docs" "shadcn-ui";
  mkExample "https://clerk.com/docs/quickstarts/nextjs" "clerk-next";
  mkExample "https://vercel.com/docs" "vercel-doc";
  mkExample "https://neon.tech/docs/introduction" "neon-intro";
  mkExample "https://lucide.dev/icons/" "lucide-ico"
].

(** The object passed to [.values(...)] in one turn of the loop, and the
    world after reading the id generator once and the clock twice. *)
Definition seedValues (E : Env) (w : World) (link : ExampleLink)
  : NewLink * World :=
  ({| n_id := Some (nanoid E (ids w));
      n_userId := Some seedUserId;
      n_url := Some (ex_url link);
      n_shortCode := Some (ex_shortCode link);
      n_createdAt := Some (date E (dates w));
      n_updatedAt := Some (date E (S (dates w))) |},
   mkWorld (rows w) (log w) (S (ids w)) (codes w) (S (S (dates w)))).

Inductive SeedResult : Type :=
| SeedCompleted
| SeedFailed (error : Reply Row).

(** [for (const link of exampleLinks) { await db.insert(links).values(...) }]
    inside [try]: the first insert that fails ends the loop, and the error
    is thrown on. *)
Fixpoint seedLoop (E : Env) (todo : list ExampleLink) (w : World)
  : SeedResult * World :=
  match todo with
  | [] => (SeedCompleted, w)
  | link :: rest =>
      let '(v, w1) := seedValues E w link in
      match sendInsert E w1 v with
      | (Returned _, w2) => seedLoop E rest w2
      | (error, w2) => (SeedFailed error, w2)
      end
  end.

Definition seedExampleLinks (E : Env) (w : World) : SeedResult * World :=
  seedLoop E exampleLinks w.

(* ================================================================== *)
(** * 5. The short-code allocator *)
(* ================================================================== *)

(** Modelled from the spec: the error kinds of the allocator (section 7),
    which the repository does not contain. *)
Inductive AllocError : Type :=
| InvalidURL
| InvalidCustomCode
| CodeAlreadyExists
| AllocationExhausted
| StoreUnavailable.

(** [Link | Error]. *)
Inductive Result : Type :=
| Ok (link : Row)
| Error (kind : AllocError).

(** Modelled from the spec: the retry bound of the generation loop, which
    the repository does not contain (reference value: 5 attempts). *)
Definition maxAttempts : nat := 5.

(** Length bound of a short code: the [varchar] length of [db/schema.ts]. *)
Definition maxCodeLength : nat := 20.

Definition isLetter (c : ascii) : bool :=
  let n := nat_of_ascii c in
  (Nat.leb 65 n && Nat.leb n 90) || (Nat.leb 97 n && Nat.leb n 122).

Definition isDigit (c : ascii) : bool :=
  let n := nat_of_ascii c in Nat.leb 48 n && Nat.leb n 57.

Definition isCodeChar (c : ascii) : bool :=
  isLetter c || isDigit c || Ascii.eqb c "-"%char.

(** Modelled from the spec: the check on a caller-supplied code, which the
    repository does not contain: letters, digits and hyphen only, within
    the length bound. *)
Definition isValidCustomCode (code : string) : bool :=
  Nat.leb (String.length code) maxCodeLength
  && forallb isCodeChar (list_ascii_of_string code).

(** The store error that means "this short code is taken": a violation of
    the unique constraint on the short-code column. *)
Definition isShortCodeConflict (t : Table) (e : StoreError) : bool :=
  match e with
  | UniqueViolation c => String.eqb c (constraintName t (shortCode t))
  | _ => false
  end.

(** Modelled from the spec: the values of the INSERT of one attempt of the
    allocator, which the repository does not contain: a generated id, the
    owner, the URL and the code. *)
Definition attemptValues (E : Env) (w : World) (url userId code : string)
  : NewLink :=
  mkNewLink (Some (nanoid E (ids w))) (Some userId) (Some url) (Some code)
            None None.

(** Modelled from the spec: one persistence attempt of the allocator, which
    the repository does not contain.  The id is generated by the caller (the
    table has no default for it), the timestamps are left to the store. *)
Definition attempt (E : Env) (w : World) (url userId code : string)
  : Reply Row * World :=
  sendInsert E (mkWorld (rows w) (log w) (S (ids w)) (codes w) (dates w))
             (attemptValues E w url userId code).

(** Modelled from the spec: the generation loop of the allocator (steps 4
    and 5), which the repository does not contain.  [left] attempts remain. *)
Fixpoint generate (E : Env) (left : nat) (w : World) (url userId : string)
  : Result * World :=
  match left with
  | O => (Error AllocationExhausted, w)
  | S left' =>
      let code := generateShortCode E (codes w) in
      let w1 := mkWorld (rows w) (log w) (ids w) (S (codes w)) (dates w) in
      match attempt E w1 url userId code with
      | (Returned link, w2) => (Ok link, w2)
      | (Refused e, w2) =>
          if isShortCodeConflict (env_table E) e
          then generate E left' w2 url userId
          else (Error StoreUnavailable, w2)
      | (Unreachable, w2) => (Error StoreUnavailable, w2)
      end
  end.

(** Modelled from the spec: [allocate(url, userId, customCode?)], which the
    repository does not contain (section 4.1, steps 1 to 6). *)
Definition allocate (E : Env) (w : World) (url userId : string)
           (customCode : option string) : Result * World :=
  if negb (isValidUrl E url) then (Error InvalidURL, w)
  else match customCode with
       | Some code =>
           if negb (isValidCustomCode code) then (Error InvalidCustomCode, w)
           else match attempt E w url userId code with
                | (Returned link, w') => (Ok link, w')
                | (Refused e, w') =>
                    if isShortCodeConflict (env_table E) e
                    then (Error CodeAlreadyExists, w')
                    else (Error StoreUnavailable, w')
                | (Unreachable, w') => (Error StoreUnavailable, w')
                end
       | None => generate E maxAttempts w url userId
       end.

(** ** Sequences of operations *)

Inductive Op : Type :=
| Allocate (url userId : string) (customCode : option string)
| Raw (s : Statement).

Definition step (E : Env) (w : World) (o : Op) : World :=
  match o with
  | Allocate url userId customCode => snd (allocate E w url userId customCode)
  | Raw s => send E w s
  end.

Definition run (E : Env) (w : World) (ops : list Op) : World :=
  fold_left (step E) ops w.

Unset Implicit Arguments.

(* ================================================================== *)
(** * 6. Calls in progress *)
(* ================================================================== *)

(** Modelled from the spec: a call of [allocate] in progress (the
    repository contains no allocator).  Validation is local to the call;
    each INSERT is one step on the shared store (section 5: each attempt is
    a single atomic insert). *)
Inductive Thread : Type :=
| Called (url userId : string) (customCode : option string)
| Inserting (url userId code : string)
| Generating (url userId : string) (left : nat)
| Finished (res : Result).

(** Modelled from the spec: one step of a call of [allocate], which the
    repository does not contain: the validation (steps 1 and 2), or one
    persistence attempt and the reading of its reply (steps 3 to 6). *)
Definition threadStep (E : Env) (w : World) (th : Thread) : Thread * World :=
  match th with
  | Called url userId customCode =>
      if negb (isValidUrl E url) then (Finished (Error InvalidURL), w)
      else match customCode with
           | Some code =>
               if negb (isValidCustomCode code)
               then (Finished (Error InvalidCustomCode), w)
               else (Inserting url userId code, w)
           | None => (Generating url userId maxAttempts, w)
           end
  | Inserting url userId code =>
      match attempt E w url userId code with
      | (Returned link, w') => (Finished (Ok link), w')
      | (Refused e, w') =>
          if isShortCodeConflict (env_table E) e
          then (Finished (Error CodeAlreadyExists), w')
          else (Finished (Error StoreUnavailable), w')
      | (Unreachable, w') => (Finished (Error StoreUnavailable), w')
      end
  | Generating url userId remaining =>
      match remaining with
      | O => (Finished (Error AllocationExhausted), w)
      | S left' =>
          let code := generateShortCode E (codes w) in
          let w1 := mkWorld (rows w) (log w) (ids w) (S (codes w)) (dates w) in
          match attempt E w1 url userId code with
          | (Returned link, w2) => (Finished (Ok link), w2)
          | (Refused e, w2) =>
              if isShortCodeConflict (env_table E) e
              then (Generating url userId left', w2)
              else (Finished (Error StoreUnavailable), w2)
          | (Unreachable, w2) => (Finished (Error StoreUnavailable), w2)
          end
      end
  | Finished res => (Finished res, w)
  end.

(** A call running alone for [n] steps. *)
Fixpoint runThread (E : Env) (n : nat) (w : World) (th : Thread)
  : Thread * World :=
  match n with
  | O => (th, w)
  | S n' => let '(th', w') := threadStep E w th in runThread E n' w' th'
  end.

(** Two calls on one store. *)
Record Pool : Type := mkPool {
  world : World;
  first : Thread;
  second : Thread
}.

Inductive Turn : Type := First | Second.

Definition poolStep (E : Env) (p : Pool) (t : Turn) : Pool :=
  match t with
  | First => let '(th, w) := threadStep E (world p) (first p) in
             mkPool w th (second p)
  | Second => let '(th, w) := threadStep E (world p) (second p) in
              mkPool w (first p) th
  end.

(** The pool after the turns of a schedule, taken in order. *)
Definition schedule (E : Env) (p : Pool) (turns : list Turn) : Pool :=
  fold_left (poolStep E) turns p.

Definition isTurn (t u : Turn) : bool :=
  match t, u with
  | First, First | Second, Second => true
  | _, _ => false
  end.

Definition turnsOf (t : Turn) (turns : list Turn) : nat :=
  List.length (filter (isTurn t) turns).

Definition taken (t u : Turn) : nat := if isTurn t u then 1 else 0.

(** Steps a call still has to take before it is finished. *)
Definition stepsLeft (th : Thread) : nat :=
  match th with
  | Called _ _ _ => 2
  | Inserting _ _ _ => 1
  | Generating _ _ remaining => S remaining
  | Finished _ => 0
  end.

(* ================================================================== *)
(** * 7. Vocabulary of the statements *)
(* ================================================================== *)

(** The non-NULL cells of a column. *)
Fixpoint held {A} (cells : list (option A)) : list A :=
  match cells with
  | [] => []
  | Some a :: rest => a :: held rest
  | None :: rest => held rest
  end.

(** A string that went through [coerce] fits the column. *)
Definition fits (ty : SqlType) (v : option string) : Prop :=
  match ty, v with
  | SqlVarchar n, Some s => String.length s <= n
  | _, _ => True
  end.

(** A column behind a unique index. *)
Definition keyed {A} (c : Column A) : bool := col_primaryKey c || col_unique c.

(** The stored states the declaration [t] allows: NOT NULL columns are
    filled, short codes fit their column type, and the columns behind a
    unique index hold pairwise distinct values. *)
Record Consistent (t : Table) (rs : list Row) : Prop := mkConsistent {
  all_links : Forall (fun r => isLink t r = true) rs;
  all_fit : Forall (fun r => fits (col_type (shortCode t)) (r_shortCode r)) rs;
  ids_distinct : keyed (id t) = true -> NoDup (held (map r_id rs));
  codes_distinct :
    keyed (shortCode t) = true -> NoDup (held (map r_shortCode rs))
}.

(** Position by position: a row the WHERE clause does not select is kept,
    a selected row is replaced by its [updateRow]. *)
Definition rewritten (t : Table) (now : Z) (linkId : string) (set : NewLink)
           (r r' : Row) : Prop :=
  if cellEqb String.eqb linkId (r_id r)
  then updateRow t now set r = Done r'
  else r' = r.

(** How one row may differ after an UPDATE of the row with id [linkId]: a
    row with another id is the same; [created_at] and [updated_at] are the
    same unless [set] mentions them, and are what [set] says if it does. *)
Definition updatedFrom (linkId : string) (set : NewLink) (r r' : Row) : Prop :=
  (r_id r <> Some linkId -> r' = r)
  /\ (n_createdAt set = None -> r_createdAt r' = r_createdAt r)
  /\ (n_updatedAt set = None -> r_updatedAt r' = r_updatedAt r)
  /\ (r_id r = Some linkId ->
      forall z, n_updatedAt set = Some z -> r_updatedAt r' = Some z).

(** Some row holds this id, this short code. *)
Definition holdsId (rs : list Row) (i : string) : bool :=
  existsb (cellEqb String.eqb i) (map r_id rs).

Definition holdsCode (rs : list Row) (code : string) : bool :=
  existsb (cellEqb String.eqb code) (map r_shortCode rs).

Definition orNow (v : option Z) (now : Z) : Z :=
  match v with Some z => z | None => now end.

(** The statement of the attempt number [k] (from 0) of a generation loop
    started in [w]: the [k]-th next id and the [k]-th next candidate. *)
Definition generatedInsert (E : Env) (w : World) (url userId : string)
           (k : nat) : Statement :=
  Insert (mkNewLink (Some (nanoid E (ids w + k))) (Some userId) (Some url)
                    (Some (generateShortCode E (codes w + k))) None None).

(** The world after [n] refused attempts of a generation loop. *)
Definition afterCollisions (E : Env) (w : World) (url userId : string)
           (n : nat) : World :=
  mkWorld (rows w)
          (log w ++ map (generatedInsert E w url userId) (seq 0 n))
          (ids w + n) (codes w + n) (dates w).

(** The attempts [0 .. n-1] from [w] go through to the store with a fresh
    id and a candidate within the length bound. *)
Definition wellServed (E : Env) (w : World) (n : nat) : Prop :=
  forall k, k < n ->
    reachable E (List.length (log w) + k) = true
    /\ holdsId (rows w) (nanoid E (ids w + k)) = false
    /\ String.length (generateShortCode E (codes w + k)) <= maxCodeLength.

(** The candidates [0 .. n-1] from [w] are all taken. *)
Definition collide (E : Env) (w : World) (n : nat) : Prop :=
  forall k, k < n ->
    holdsCode (rows w) (generateShortCode E (codes w + k)) = true.

(** The five kinds of failure. *)
Definition errorKinds : list AllocError :=
  [InvalidURL; InvalidCustomCode; CodeAlreadyExists; AllocationExhausted;
   StoreUnavailable].

(** What every run of the allocator comes to: a link that is a [Link] of the
    table and the one row added, or a classified error and the rows as
    they were; at most [n] statements sent. *)
Definition settled (E : Env) (w : World) (n : nat) (out : Result * World)
  : Prop :=
  let '(res, w') := out in
  List.length (log w') <= List.length (log w) + n
  /\ match res with
     | Ok link => rows w' = rows w ++ [link]
                  /\ isLink (env_table E) link = true
     | Error kind => rows w' = rows w /\ In kind errorKinds
     end.

Definition isLower (c : ascii) : bool :=
  let n := nat_of_ascii c in Nat.leb 97 n && Nat.leb n 122.

(** Lowercase letter, digit or hyphen. *)
Definition isSeedCodeChar (c : ascii) : bool :=
  isLower c || isDigit c || Ascii.eqb c "-"%char.

(** The rows a complete run of the loop over [todo] stores, when the id
    generator stands at [i] and the clock at [d]. *)
Fixpoint seededRows (E : Env) (i d : nat) (todo : list ExampleLink)
  : list Row :=
  match todo with
  | [] => []
  | link :: rest =>
      mkRow (Some (nanoid E i)) (Some seedUserId) (Some (ex_url link))
            (Some (ex_shortCode link)) (Some (date E d)) (Some (date E (S d)))
      :: seededRows E (S i) (S (S d)) rest
  end.

(** The short codes still to insert are within the length bound, pairwise
    different, and held by no row. *)
Definition insertable (todo : list ExampleLink) (w : World) : Prop :=
  Forall (fun l => String.length (ex_shortCode l) <= maxCodeLength) todo
  /\ NoDup (map ex_shortCode todo)
  /\ forall l, In l todo -> holdsCode (rows w) (ex_shortCode l) = false.

(** What a call for the custom code [code] has to show for its state: it
    asks for that code, and if it has finished with a link, the link is a
    row of the table and its short code is what the column made of
    [code]. *)
Definition owns (E : Env) (code : string) (rs : list Row) (th : Thread)
  : Prop :=
  match th with
  | Called _ _ (Some c) => c = code
  | Inserting _ _ c => c = code
  | Finished (Ok link) =>
      In link rs
      /\ coerce (shortCode (env_table E)) (Some code) = Done (r_shortCode link)
  | Finished (Error _) => True
  | _ => False
  end.

(** Both calls have returned a link. *)
Definition bothSucceeded (p : Pool) : Prop :=
  exists link1 link2,
    first p = Finished (Ok link1) /\ second p = Finished (Ok link2).

(** The row of the call whose INSERT reaches the store first, and the world
    right after it. *)
Definition winner (E : Env) (w : World) (code url0 uid : string) : Row :=
  let now := dbNow E (List.length (log w)) in
  mkRow (Some (nanoid E (ids w))) (Some uid) (Some url0) (Some code)
        (Some now) (Some now).

Definition wonBy (E : Env) (w : World) (code url0 uid : string) : World :=
  mkWorld (rows w ++ [winner E w code url0 uid])
          (log w ++ [Insert (attemptValues E w url0 uid code)])
          (S (ids w)) (codes w) (dates w).

(** A call that has not sent its INSERT yet. *)
Definition pending (code url0 uid : string) (th : Thread) : Prop :=
  th = Called url0 uid (Some code) \/ th = Inserting url0 uid code.

(** The pools the two calls can be in. *)
Inductive Raced (E : Env) (w : World) (url1 uid1 url2 uid2 code : string)
  : Pool -> Prop :=
| BothPending th1 th2 :
    pending code url1 uid1 th1 -> pending code url2 uid2 th2 ->
    Raced E w url1 uid1 url2 uid2 code (mkPool w th1 th2)
| FirstWon th2 :
    pending code url2 uid2 th2 ->
    Raced E w url1 uid1 url2 uid2 code
          (mkPool (wonBy E w code url1 uid1)
                  (Finished (Ok (winner E w code url1 uid1))) th2)
| SecondWon th1 :
    pending code url1 uid1 th1 ->
    Raced E w url1 uid1 url2 uid2 code
          (mkPool (wonBy E w code url2 uid2) th1
                  (Finished (Ok (winner E w code url2 uid2))))
| FirstWonSecondLost w2 :
    rows w2 = rows w ++ [winner E w code url1 uid1] ->
    Raced E w url1 uid1 url2 uid2 code
          (mkPool w2 (Finished (Ok (winner E w code url1 uid1)))
                  (Finished (Error CodeAlreadyExists)))
| SecondWonFirstLost w2 :
    rows w2 = rows w ++ [winner E w code url2 uid2] ->
    Raced E w url1 uid1 url2 uid2 code
          (mkPool w2 (Finished (Error CodeAlreadyExists))
                  (Finished (Ok (winner E w code url2 uid2)))).

(* ================================================================== *)
(** * 8. An environment to run the definitions in *)
(* ================================================================== *)

(** A URL check for the examples: scheme [http] or [https] and something
    after it. *)
Definition httpUrl (s : string) : bool :=
  (prefix "http://" s && Nat.ltb 7 (String.length s))
  || (prefix "https://" s && Nat.ltb 8 (String.length s)).

Definition stamp (tag : string) (k : nat) : string :=
  String.append tag (string_of_list_ascii (repeat "x"%char k)).

(** Ids [id], [idx], [idxx], ...; candidates [c], [cx], ...; a store that
    always answers; clocks that tick once per reading. *)
Definition exampleEnv (t : Table) : Env := {|
  env_table := t;
  isValidUrl := httpUrl;
  nanoid := stamp "id";
  generateShortCode := stamp "c";
  date := fun k => Z.of_nat k;
  reachable := fun _ => true;
  dbNow := fun k => (1000 + Z.of_nat k)%Z
|}.

(** A table where the first two candidates of [exampleEnv] are taken. *)
Definition twoTaken : World :=
  mkWorld [ mkRow (Some "a") (Some "u0") (Some "https://a.example")
                  (Some "c") (Some 1%Z) (Some 1%Z);
            mkRow (Some "b") (Some "u0") (Some "https://b.example")
                  (Some "cx") (Some 2%Z) (Some 2%Z) ]
          [] 0 0 0.

(** A table where ["my-link"] is taken. *)
Definition myLinkTaken : World :=
  mkWorld [ mkRow (Some "id") (Some "uid") (Some "https://example.com")
                  (Some "my-link") (Some 1000%Z) (Some 1000%Z) ]
          [ Insert (mkNewLink (Some "id") (Some "uid")
                              (Some "https://example.com") (Some "my-link")
                              None None) ]
          1 0 0.

(* ================================================================== *)
(** * Queries, statement sequences and the seed program *)
(* ================================================================== *)

(** Statements sent one after the other. *)
Definition sendAll (E : Env) (w : World) (stmts : list Statement) : World :=
  fold_left (send E) stmts w.

(** The same environment over another declaration of the table. *)
Definition withTable (t : Table) (E : Env) : Env :=
  mkEnv t (isValidUrl E) (nanoid E) (generateShortCode E) (date E)
        (reachable E) (dbNow E).

(** The short code a statement mentions, if any, has at most [n]
    characters. *)
Definition codeWithin (n : nat) (s : Statement) : Prop :=
  match s with
  | Insert v | Update _ v =>
      match n_shortCode v with
      | Some c => String.length c <= n
      | None => True
      end
  | Delete _ => True
  end.

(** [db.query.links.findFirst({ where: eq(links.shortCode, shortCode) })]:
    the first row whose short code is [code]; a NULL cell matches
    nothing. *)
Definition findFirstByShortCode (rs : list Row) (code : string) : option Row :=
  find (fun r => cellEqb String.eqb code (r_shortCode r)) rs.

(** The seed program as a whole:
    [seedExampleLinks().then(() => process.exit(0)).catch(() => process.exit(1))];
    the result is the exit code. *)
Definition seedMain (E : Env) (w : World) : nat * World :=
  match seedExampleLinks E w with
  | (SeedCompleted, w') => (0, w')
  | (SeedFailed _, w') => (1, w')
  end.

(* ================================================================== *)
(** * 9. Properties of single statements *)
(* ================================================================== *)

Lemma held_app A (xs ys : list (option A)) :
  held (xs ++ ys) = held xs ++ held ys.
Proof.
  induction xs as [|[a|] xs IH]; cbn; [reflexivity | now rewrite IH | exact IH].
Qed.

Lemma held_In A (x : A) (cells : list (option A)) :
  In x (held cells) <-> In (Some x) cells.
Proof.
  induction cells as [|[a|] cells IH]; cbn.
  - tauto.
  - rewrite IH. split; intros [H|H]; auto; left; congruence.
  - rewrite IH. split; [auto | intros [H|H]; [discriminate | exact H]].
Qed.

Lemma existsb_cellEqb x (cells : list (option string)) :
  existsb (cellEqb String.eqb x) cells = true <-> In x (held cells).
Proof.
  induction cells as [|[a|] cells IH]; cbn.
  - split; [discriminate | tauto].
  - rewrite orb_true_iff, IH, String.eqb_eq. split; intros [H|H]; auto.
  - exact IH.
Qed.

Lemma existsb_cellEqb_false x (cells : list (option string)) :
  existsb (cellEqb String.eqb x) cells = false <-> ~ In x (held cells).
Proof.
  rewrite <- existsb_cellEqb. destruct (existsb _ cells); split; intro H;
    try reflexivity; try discriminate; try (intro; discriminate).
  exfalso. now apply H.
Qed.

Lemma bind_Done A B (m : Outcome A) (f : A -> Outcome B) (b : B) :
  bind m f = Done b -> exists a, m = Done a /\ f a = Done b.
Proof. destruct m as [a|e]; cbn; [eauto | discriminate]. Qed.

Lemma checkNotNull_Done A B (c : Column A) (v : option B) u :
  checkNotNull c v = Done u -> negb (col_notNull c) || filled v = true.
Proof.
  unfold checkNotNull. destruct (col_notNull c), v; cbn; congruence.
Qed.

Lemma checkUnique_Done t (c : Column string) others x u :
  checkUnique String.eqb t c others (Some x) = Done u ->
  col_primaryKey c || col_unique c = true ->
  ~ In x (held others).
Proof.
  unfold checkUnique. intros H Hflag. rewrite Hflag in H.
  destruct (existsb _ others) eqn:Hex; [discriminate|].
  now apply existsb_cellEqb_false.
Qed.

Lemma length_substring_le n m s : String.length (substring n m s) <= m.
Proof.
  revert n m. induction s as [|c s IH]; intros [|n] [|m]; cbn; try lia.
  - specialize (IH 0 m). lia.
  - apply (IH n 0).
  - apply (IH n (S m)).
Qed.

Lemma coerce_Done c v v' :
  coerce c v = Done v' -> fits (col_type c) v' /\ (filled v' = filled v).
Proof.
  unfold coerce, fits.
  destruct v as [s|]; [|intros [= <-]; destruct (col_type c); auto].
  destruct (col_type c) as [|n|tz].
  - intros [= <-]. auto.
  - destruct (Nat.leb (String.length s) n) eqn:Hle.
    + intros [= <-]. apply Nat.leb_le in Hle. auto.
    + destruct (allSpaces _); [|discriminate].
      intros [= <-]. split; [apply length_substring_le | reflexivity].
  - intros [= <-]. auto.
Qed.

(** A string within the bound is stored as it is. *)
Lemma coerce_fits c s :
  fits (col_type c) (Some s) -> coerce c (Some s) = Done (Some s).
Proof.
  unfold coerce, fits. destruct (col_type c) as [|n|tz]; try reflexivity.
  intro H. apply Nat.leb_le in H. now rewrite H.
Qed.

(** What a successful INSERT has established. *)
Lemma insert_Done t now rs v rs' r :
  insert t now rs v = Done (rs', r) ->
  rs' = rs ++ [r]
  /\ coerce (id t) (resolve (id t) now (n_id v)) = Done (r_id r)
  /\ coerce (userId t) (resolve (userId t) now (n_userId v)) = Done (r_userId r)
  /\ coerce (url t) (resolve (url t) now (n_url v)) = Done (r_url r)
  /\ coerce (shortCode t) (resolve (shortCode t) now (n_shortCode v))
     = Done (r_shortCode r)
  /\ r_createdAt r = resolve (createdAt t) now (n_createdAt v)
  /\ r_updatedAt r = resolve (updatedAt t) now (n_updatedAt v)
  /\ isLink t r = true
  /\ checkUnique String.eqb t (id t) (map r_id rs) (r_id r) = Done tt
  /\ checkUnique String.eqb t (shortCode t) (map r_shortCode rs) (r_shortCode r)
     = Done tt.
Proof.
  unfold insert. intro H.
  apply bind_Done in H; destruct H as (cid & Hid & H).
  apply bind_Done in H; destruct H as (cuser & Huser & H).
  apply bind_Done in H; destruct H as (curl & Hurl & H).
  apply bind_Done in H; destruct H as (ccode & Hcode & H).
  cbv zeta in H.
  apply bind_Done in H; destruct H as (u1 & N1 & H).
  apply bind_Done in H; destruct H as (u2 & N2 & H).
  apply bind_Done in H; destruct H as (u3 & N3 & H).
  apply bind_Done in H; destruct H as (u4 & N4 & H).
  apply bind_Done in H; destruct H as (u5 & N5 & H).
  apply bind_Done in H; destruct H as (u6 & N6 & H).
  apply bind_Done in H; destruct H as ([] & U1 & H).
  apply bind_Done in H; destruct H as (u8 & U2 & H).
  apply bind_Done in H; destruct H as (u9 & U3 & H).
  apply bind_Done in H; destruct H as ([] & U4 & H).
  apply bind_Done in H; destruct H as (u11 & U5 & H).
  apply bind_Done in H; destruct H as (u12 & U6 & H).
  injection H as <- <-. cbn.
  repeat split; try assumption.
  unfold isLink. cbn.
  apply checkNotNull_Done in N1, N2, N3, N4, N5, N6.
  unfold filled in *.
  now rewrite N1, N2, N3, N4, N5, N6.
Qed.

(** A refused INSERT leaves nothing behind: [insert] returns rows only with
    [Done]. *)
Lemma insert_appends t now rs v rs' r :
  insert t now rs v = Done (rs', r) -> rs' = rs ++ [r].
Proof. intro H. now apply insert_Done in H. Qed.

(** ** Columns with pairwise distinct values *)

Lemma NoDup_snoc A (l : list A) (x : A) :
  NoDup l -> ~ In x l -> NoDup (l ++ [x]).
Proof.
  intros Hl Hx. apply (NoDup_Add (a := x) (l := l)).
  - rewrite <- (app_nil_r l) at 1. apply Add_app.
  - split; assumption.
Qed.

Lemma held_cell A (f : Row -> option A) (before rest : list Row) (r : Row) :
  held (map f (before ++ r :: rest))
  = held (map f before) ++ held [f r] ++ held (map f rest).
Proof.
  rewrite map_app, held_app. cbn [map].
  change (f r :: map f rest) with ([f r] ++ map f rest).
  now rewrite held_app.
Qed.

(** Replacing one row keeps a column free of duplicates when the new value
    is held by no other row. *)
Lemma NoDup_held_replace A (f : Row -> option A) before r r' rest :
  NoDup (held (map f (before ++ r :: rest))) ->
  (forall x, f r' = Some x -> ~ In x (held (map f (before ++ rest)))) ->
  NoDup (held (map f (before ++ r' :: rest))).
Proof.
  intros Hnd Hnew.
  assert (Hrest : NoDup (held (map f (before ++ rest)))).
  { rewrite held_cell in Hnd. rewrite map_app, held_app.
    destruct (f r) as [y|]; cbn in Hnd; [|exact Hnd].
    now apply NoDup_remove_1 in Hnd. }
  rewrite held_cell. destruct (f r') as [x|] eqn:Hx; cbn.
  - rewrite map_app, held_app in Hrest, Hnew.
    apply (NoDup_Add (a := x) (l := held (map f before) ++ held (map f rest))).
    + apply Add_app.
    + split; [exact Hrest | now apply Hnew].
  - now rewrite map_app, held_app in Hrest.
Qed.

Lemma held_filter_In A (f : Row -> option A) (keep : Row -> bool) rs x :
  In x (held (map f (filter keep rs))) -> In x (held (map f rs)).
Proof.
  rewrite !held_In, !in_map_iff. intros (r & Hr & Hin).
  apply filter_In in Hin. exists r. tauto.
Qed.

Lemma NoDup_held_filter A (f : Row -> option A) (keep : Row -> bool) rs :
  NoDup (held (map f rs)) -> NoDup (held (map f (filter keep rs))).
Proof.
  induction rs as [|r rs IH]; cbn; [auto|].
  intro Hnd.
  assert (Htail : NoDup (held (map f rs))).
  { destruct (f r); [now inversion Hnd | exact Hnd]. }
  destruct (keep r); cbn; [|auto].
  destruct (f r) as [x|] eqn:Hx; [|auto].
  constructor; [|auto].
  intro Hin. apply held_filter_In in Hin. now inversion Hnd.
Qed.

(** ** UPDATE, row by row *)

(** An induction principle for [updateRows]: a property of the table that
    survives the replacement of one matching row, given the checks that
    replacement passed, holds of the result. *)
Lemma updateRows_invariant (I : list Row -> Prop) t now linkId set :
  (forall before r rest r',
      I (before ++ r :: rest) ->
      cellEqb String.eqb linkId (r_id r) = true ->
      updateRow t now set r = Done r' ->
      checkUnique String.eqb t (id t) (map r_id (before ++ rest)) (r_id r')
      = Done tt ->
      checkUnique String.eqb t (shortCode t) (map r_shortCode (before ++ rest))
                  (r_shortCode r') = Done tt ->
      I (before ++ r' :: rest)) ->
  forall after before rs',
    updateRows t now linkId set before after = Done rs' ->
    I (before ++ after) -> I rs'.
Proof.
  intros Hstep. induction after as [|r rest IH]; intros before rs' H HI.
  - cbn in H. injection H as <-. now rewrite app_nil_r in HI.
  - cbn in H. destruct (cellEqb String.eqb linkId (r_id r)) eqn:Hmatch.
    + apply bind_Done in H; destruct H as (r' & Hr' & H).
      cbv zeta in H.
      apply bind_Done in H; destruct H as ([] & U1 & H).
      apply bind_Done in H; destruct H as (u2 & U2 & H).
      apply bind_Done in H; destruct H as (u3 & U3 & H).
      apply bind_Done in H; destruct H as ([] & U4 & H).
      apply bind_Done in H; destruct H as (u5 & U5 & H).
      apply bind_Done in H; destruct H as (u6 & U6 & H).
      apply (IH _ _ H). rewrite <- app_assoc. cbn.
      now apply (Hstep before r rest r').
    + apply (IH _ _ H). rewrite <- app_assoc. exact HI.
Qed.

Lemma updateRows_shape t now linkId set after :
  forall before rs',
    updateRows t now linkId set before after = Done rs' ->
    exists news, rs' = before ++ news
                 /\ Forall2 (rewritten t now linkId set) after news.
Proof.
  induction after as [|r rest IH]; intros before rs' H.
  - cbn in H. injection H as <-. exists []. now rewrite app_nil_r.
  - cbn in H. destruct (cellEqb String.eqb linkId (r_id r)) eqn:Hmatch.
    + apply bind_Done in H; destruct H as (r' & Hr' & H).
      cbv zeta in H.
      do 6 (apply bind_Done in H; destruct H as (? & _ & H)).
      destruct (IH _ _ H) as (news & -> & Hall).
      exists (r' :: news). rewrite <- app_assoc. split; [reflexivity|].
      constructor; [|exact Hall]. unfold rewritten. now rewrite Hmatch.
    + destruct (IH _ _ H) as (news & -> & Hall).
      exists (r :: news). rewrite <- app_assoc. split; [reflexivity|].
      constructor; [|exact Hall]. unfold rewritten. now rewrite Hmatch.
Qed.

Lemma update_shape t now rs linkId set rs' :
  update t now rs linkId set = Done rs' ->
  Forall2 (rewritten t now linkId set) rs rs'.
Proof.
  intro H. apply updateRows_shape in H. now destruct H as (news & -> & H).
Qed.

Lemma filled_assign A (c : Column A) now (old new : option A) :
  filled old = true -> filled (assign c now old new) = true.
Proof.
  unfold assign. destruct new; [reflexivity|].
  destruct (col_onUpdate c); [reflexivity | auto].
Qed.

(** What a successful rewrite of one row has established. *)
Lemma updateRow_Done t now set r r' :
  updateRow t now set r = Done r' ->
  coerce (id t) (assign (id t) now (r_id r) (n_id set)) = Done (r_id r')
  /\ coerce (userId t) (assign (userId t) now (r_userId r) (n_userId set))
     = Done (r_userId r')
  /\ coerce (url t) (assign (url t) now (r_url r) (n_url set)) = Done (r_url r')
  /\ coerce (shortCode t)
       (assign (shortCode t) now (r_shortCode r) (n_shortCode set))
     = Done (r_shortCode r')
  /\ r_createdAt r' = assign (createdAt t) now (r_createdAt r) (n_createdAt set)
  /\ r_updatedAt r' = assign (updatedAt t) now (r_updatedAt r) (n_updatedAt set).
Proof.
  unfold updateRow. intro H.
  apply bind_Done in H; destruct H as (cid & Hid & H).
  apply bind_Done in H; destruct H as (cuser & Huser & H).
  apply bind_Done in H; destruct H as (curl & Hurl & H).
  apply bind_Done in H; destruct H as (ccode & Hcode & H).
  injection H as <-. cbn. auto 10.
Qed.

Lemma orb_filled_mono (b : bool) A (v v' : option A) :
  (filled v = true -> filled v' = true) ->
  negb b || filled v = true -> negb b || filled v' = true.
Proof. destruct b; cbn; auto. Qed.

Lemma updateRow_isLink t now set r r' :
  updateRow t now set r = Done r' -> isLink t r = true -> isLink t r' = true.
Proof.
  intros H. apply updateRow_Done in H.
  destruct H as (Hid & Huser & Hurl & Hcode & Hc & Hu).
  apply coerce_Done in Hid, Huser, Hurl, Hcode.
  unfold isLink. rewrite !andb_true_iff.
  intros (((((L1 & L2) & L3) & L4) & L5) & L6).
  repeat split.
  - revert L1. apply orb_filled_mono. intro F.
    destruct Hid as [_ ->]. now apply filled_assign.
  - revert L2. apply orb_filled_mono. intro F.
    destruct Huser as [_ ->]. now apply filled_assign.
  - revert L3. apply orb_filled_mono. intro F.
    destruct Hurl as [_ ->]. now apply filled_assign.
  - revert L4. apply orb_filled_mono. intro F.
    destruct Hcode as [_ ->]. now apply filled_assign.
  - revert L5. apply orb_filled_mono. intro F.
    rewrite Hc. now apply filled_assign.
  - revert L6. apply orb_filled_mono. intro F.
    rewrite Hu. now apply filled_assign.
Qed.

(* ================================================================== *)
(** * 10. What the constraints of the table maintain *)
(* ================================================================== *)

Lemma Consistent_nil t : Consistent t [].
Proof. split; cbn; intros; constructor. Qed.

Lemma NoDup_held_snoc (f : Row -> option string) t (c : Column string) rs r :
  NoDup (held (map f rs)) ->
  checkUnique String.eqb t c (map f rs) (f r) = Done tt ->
  keyed c = true ->
  NoDup (held (map f (rs ++ [r]))).
Proof.
  intros Hnd Hchk Hkey. rewrite map_app, held_app. cbn.
  destruct (f r) as [x|]; cbn; [|now rewrite app_nil_r].
  apply NoDup_snoc; [exact Hnd|].
  exact (@checkUnique_Done t c _ x tt Hchk Hkey).
Qed.

Lemma insert_Consistent t now rs v rs' r :
  Consistent t rs -> insert t now rs v = Done (rs', r) -> Consistent t rs'.
Proof.
  intros [Hl Hf Hi Hc] H. apply insert_Done in H.
  destruct H as (-> & _ & _ & _ & Hcode & _ & _ & Hlink & Uid & Ucode).
  split.
  - apply Forall_app. split; [exact Hl | now constructor].
  - apply Forall_app. split; [exact Hf|]. constructor; [|constructor].
    now apply coerce_Done in Hcode.
  - intro K. now apply (NoDup_held_snoc r_id t (id t)); auto.
  - intro K. now apply (NoDup_held_snoc r_shortCode t (shortCode t)); auto.
Qed.

Lemma delete_Consistent t rs linkId :
  Consistent t rs -> Consistent t (delete rs linkId).
Proof.
  intros [Hl Hf Hi Hc]. unfold delete. split.
  - apply Forall_forall. intros r Hr. apply filter_In in Hr.
    now apply (proj1 (Forall_forall _ _) Hl).
  - apply Forall_forall. intros r Hr. apply filter_In in Hr.
    now apply (proj1 (Forall_forall _ _) Hf).
  - intro K. now apply NoDup_held_filter, Hi.
  - intro K. now apply NoDup_held_filter, Hc.
Qed.

Lemma Forall_rewritten (P : Row -> Prop) t now linkId set rs rs' :
  (forall r r', updateRow t now set r = Done r' -> P r -> P r') ->
  Forall2 (rewritten t now linkId set) rs rs' ->
  Forall P rs -> Forall P rs'.
Proof.
  intros Hstep H2. induction H2 as [|r r' rs rs' Hr _ IH]; intro Hall.
  - constructor.
  - inversion Hall as [|? ? Hp Hrest]; subst. constructor; [|auto].
    unfold rewritten in Hr. destruct (cellEqb String.eqb linkId (r_id r)).
    + now apply (Hstep r).
    + now subst.
Qed.

Lemma update_Consistent t now rs linkId set rs' :
  Consistent t rs -> update t now rs linkId set = Done rs' -> Consistent t rs'.
Proof.
  intros [Hl Hf Hi Hc] H. split.
  - apply update_shape in H.
    revert H Hl. apply Forall_rewritten.
    intros r r'. apply updateRow_isLink.
  - apply update_shape in H. revert H Hf. apply Forall_rewritten.
    intros r r' Hr _. apply updateRow_Done in Hr.
    destruct Hr as (_ & _ & _ & Hcode & _). now apply coerce_Done in Hcode.
  - intro K. unfold update in H.
    apply (@updateRows_invariant (fun l => NoDup (held (map r_id l)))
             t now linkId set) with (after := rs) (before := []);
      [|exact H|cbn; auto].
    intros before r rest r' Hnd _ _ Uid _.
    apply (NoDup_held_replace _ r_id _ _ _ _ Hnd).
    intros x Hx. rewrite Hx in Uid. exact (@checkUnique_Done t (id t) _ x tt Uid K).
  - intro K. unfold update in H.
    apply (@updateRows_invariant (fun l => NoDup (held (map r_shortCode l)))
             t now linkId set) with (after := rs) (before := []);
      [|exact H|cbn; auto].
    intros before r rest r' Hnd _ _ _ Ucode.
    apply (NoDup_held_replace _ r_shortCode _ _ _ _ Hnd).
    intros x Hx. rewrite Hx in Ucode.
    exact (@checkUnique_Done t (shortCode t) _ x tt Ucode K).
Qed.

(** Every reply of the store leaves the table consistent. *)
Lemma sendInsert_Consistent E w v :
  Consistent (env_table E) (rows w) ->
  Consistent (env_table E) (rows (snd (sendInsert E w v))).
Proof.
  intro H. unfold sendInsert. destruct (reachable E _); [|exact H].
  destruct (insert _ _ _ _) as [[rs' r]|e] eqn:Hins; cbn; [|exact H].
  exact (insert_Consistent _ _ _ _ _ _ H Hins).
Qed.

Lemma send_Consistent E w s :
  Consistent (env_table E) (rows w) ->
  Consistent (env_table E) (rows (send E w s)).
Proof.
  intro H. destruct s as [v|linkId set|linkId]; cbn.
  - now apply sendInsert_Consistent.
  - unfold sendUpdate. destruct (reachable E _); [|exact H].
    destruct (update _ _ _ _ _) as [rs'|e] eqn:Hupd; cbn; [|exact H].
    exact (update_Consistent _ _ _ _ _ _ H Hupd).
  - unfold sendDelete. destruct (reachable E _); [|exact H].
    cbn. now apply delete_Consistent.
Qed.

Lemma attempt_Consistent E w url0 uid code :
  Consistent (env_table E) (rows w) ->
  Consistent (env_table E) (rows (snd (attempt E w url0 uid code))).
Proof. intro H. unfold attempt. now apply sendInsert_Consistent. Qed.

Lemma generate_Consistent E left : forall w url0 uid,
  Consistent (env_table E) (rows w) ->
  Consistent (env_table E) (rows (snd (generate E left w url0 uid))).
Proof.
  induction left as [|left IH]; intros w url0 uid H; cbn; [exact H|].
  pose proof (attempt_Consistent E
    (mkWorld (rows w) (log w) (ids w) (S (codes w)) (dates w)) url0 uid
    (generateShortCode E (codes w)) H) as Hw.
  destruct (attempt _ _ _ _ _) as [[link|e|] w2]; cbn in *; try exact Hw.
  destruct (isShortCodeConflict _ e); [now apply IH | exact Hw].
Qed.

Lemma allocate_Consistent E w url0 uid customCode :
  Consistent (env_table E) (rows w) ->
  Consistent (env_table E) (rows (snd (allocate E w url0 uid customCode))).
Proof.
  intro H. unfold allocate. destruct (negb (isValidUrl E url0)); [exact H|].
  destruct customCode as [code|]; [|now apply generate_Consistent].
  destruct (negb (isValidCustomCode code)); [exact H|].
  pose proof (attempt_Consistent E w url0 uid code H) as Hw.
  destruct (attempt _ _ _ _ _) as [[link|e|] w2]; cbn in *; try exact Hw.
  destruct (isShortCodeConflict _ e); exact Hw.
Qed.

Lemma run_Consistent E ops : forall w,
  Consistent (env_table E) (rows w) ->
  Consistent (env_table E) (rows (run E w ops)).
Proof.
  induction ops as [|o ops IH]; intros w H; cbn; [exact H|].
  apply IH. destruct o as [url0 uid customCode|s]; cbn.
  - now apply allocate_Consistent.
  - now apply send_Consistent.
Qed.

(** ** The two declarations *)

Lemma declared_keyed_shortCode t : declared t -> keyed (shortCode t) = true.
Proof. intros [-> | ->]; reflexivity. Qed.

Lemma declared_keyed_id t : declared t -> keyed (id t) = true.
Proof. intros [-> | ->]; reflexivity. Qed.

(** Under either declaration every column is NOT NULL, so a [Link] has all
    six cells filled. *)
Lemma isLink_declared t r :
  declared t -> isLink t r = true ->
  exists i u l c ca ua,
    r = mkRow (Some i) (Some u) (Some l) (Some c) (Some ca) (Some ua).
Proof.
  intros Ht H.
  destruct r as [[i|] [u|] [l|] [c|] [ca|] [ua|]];
    try (destruct Ht as [-> | ->]; discriminate H).
  now exists i, u, l, c, ca, ua.
Qed.

Lemma held_nth_distinct A (f : Row -> option A) rs : forall i j L1 L2 c,
  NoDup (held (map f rs)) ->
  nth_error rs i = Some L1 -> nth_error rs j = Some L2 -> i <> j ->
  f L1 = Some c -> f L2 = Some c -> False.
Proof.
  induction rs as [|r rs IH]; intros i j L1 L2 c Hnd Hi Hj Hij H1 H2.
  - destruct i; discriminate Hi.
  - assert (Hin : forall k L, nth_error rs k = Some L -> f L = Some c ->
                              In c (held (map f rs))).
    { intros k L Hk HL. apply held_In. rewrite <- HL.
      apply in_map. now apply nth_error_In with k. }
    destruct i as [|i], j as [|j]; cbn in Hi, Hj.
    + now apply Hij.
    + injection Hi as ->. cbn in Hnd. rewrite H1 in Hnd.
      inversion Hnd as [|? ? Hnotin _]; subst. apply Hnotin. now apply (Hin j L2).
    + injection Hj as ->. cbn in Hnd. rewrite H2 in Hnd.
      inversion Hnd as [|? ? Hnotin _]; subst. apply Hnotin. now apply (Hin i L1).
    + apply (IH i j L1 L2 c); auto.
      cbn in Hnd. destruct (f r); [now inversion Hnd | exact Hnd].
Qed.

(* ================================================================== *)
(** * 11. Uniqueness of short codes *)
(* ================================================================== *)

(** C1.  The short-code column is declared unique, in [db/schema.ts] and in
    the migration alike; and from an empty table, whatever sequence of
    allocations and of raw INSERT, UPDATE and DELETE statements is run, two
    rows of the table at different positions hold two different short
    codes (neither of them NULL). *)
Theorem shortCode_unique_always :
  col_unique (shortCode links) = true
  /\ col_unique (shortCode links_0000) = true
  /\ forall (E : Env) (w : World) (ops : list Op),
      declared (env_table E) -> rows w = [] ->
      forall (i j : nat) (L1 L2 : Row),
        nth_error (rows (run E w ops)) i = Some L1 ->
        nth_error (rows (run E w ops)) j = Some L2 ->
        i <> j ->
        exists c1 c2,
          r_shortCode L1 = Some c1 /\ r_shortCode L2 = Some c2 /\ c1 <> c2.
Proof.
  split; [reflexivity|]. split; [reflexivity|].
  intros E w ops Ht Hw i j L1 L2 H1 H2 Hij.
  assert (Hcons : Consistent (env_table E) (rows (run E w ops))).
  { apply run_Consistent. rewrite Hw. apply Consistent_nil. }
  destruct Hcons as [Hl _ _ Hc].
  specialize (Hc (declared_keyed_shortCode _ Ht)).
  pose proof (proj1 (Forall_forall _ _) Hl) as Hlink.
  destruct (isLink_declared _ L1 Ht (Hlink _ (nth_error_In _ _ H1)))
    as (i1 & u1 & l1 & c1 & ca1 & ua1 & E1).
  destruct (isLink_declared _ L2 Ht (Hlink _ (nth_error_In _ _ H2)))
    as (i2 & u2 & l2 & c2 & ca2 & ua2 & E2).
  exists c1, c2. subst L1 L2. cbn. repeat split.
  intros ->.
  now apply (held_nth_distinct _ r_shortCode _ i j _ _ c2 Hc H1 H2 Hij).
Qed.

Lemma shortCode_unique_always_witness :
  exists c1 c2,
    r_shortCode (mkRow (Some "id") (Some "u1") (Some "https://example.com")
                       (Some "my-link") (Some 1000%Z) (Some 1000%Z)) = Some c1
    /\ r_shortCode (mkRow (Some "idxx") (Some "u3") (Some "https://example.org")
                          (Some "c") (Some 1002%Z) (Some 1002%Z)) = Some c2
    /\ c1 <> c2.
Proof.
  apply (proj2 (proj2 shortCode_unique_always) (exampleEnv links) emptyWorld
           [ Allocate "https://example.com" "u1" (Some "my-link");
             Allocate "https://other.com" "u2" (Some "my-link");
             Allocate "https://example.org" "u3" None ]
           (or_introl eq_refl) eq_refl 0 1).
  - reflexivity.
  - reflexivity.
  - discriminate.
Defined.

(* ================================================================== *)
(** * 12. The allocator, attempt by attempt *)
(* ================================================================== *)

(** INSERT of a row with the four text columns supplied and a short code
    within 20 characters, under either declaration: the primary key is
    checked first, then the unique short code. *)
Lemma insert_declared t now rs i u l c oc ou :
  declared t -> String.length c <= maxCodeLength ->
  insert t now rs (mkNewLink (Some i) (Some u) (Some l) (Some c) oc ou)
  = if holdsId rs i then Rejected (UniqueViolation "links_pkey")
    else if holdsCode rs c
         then Rejected (UniqueViolation "links_short_code_unique")
         else let r := mkRow (Some i) (Some u) (Some l) (Some c)
                             (Some (orNow oc now)) (Some (orNow ou now)) in
              Done (rs ++ [r], r).
Proof.
  intros Ht Hlen. apply Nat.leb_le in Hlen. unfold maxCodeLength in Hlen.
  unfold holdsId, holdsCode.
  destruct Ht as [-> | ->]; unfold insert; cbn; try rewrite Hlen; cbn;
    destruct (existsb (cellEqb String.eqb i) (map r_id rs)); cbn;
    try reflexivity;
    destruct (existsb (cellEqb String.eqb c) (map r_shortCode rs)); cbn;
    try reflexivity;
    destruct oc, ou; reflexivity.
Qed.

Lemma isShortCodeConflict_declared t e :
  declared t ->
  isShortCodeConflict t e = true <-> e = UniqueViolation "links_short_code_unique".
Proof.
  intros Ht. destruct e as [c|c|c]; cbn;
    try (split; [discriminate | intro H; discriminate H]).
  destruct Ht as [-> | ->]; cbn; rewrite String.eqb_eq;
    (split; [intros -> | intros [= ->]]; reflexivity).
Qed.

(** One attempt against a reachable store, with a fresh id and a code within
    the length bound: refused when the code is taken, else the row is
    stored, with the code as supplied and both timestamps set by the
    store. *)
Lemma attempt_reply E w url0 uid code :
  declared (env_table E) ->
  reachable E (List.length (log w)) = true ->
  holdsId (rows w) (nanoid E (ids w)) = false ->
  String.length code <= maxCodeLength ->
  attempt E w url0 uid code
  = let sent := log w ++ [Insert (attemptValues E w url0 uid code)] in
    if holdsCode (rows w) code
    then (Refused (UniqueViolation "links_short_code_unique"),
          mkWorld (rows w) sent (S (ids w)) (codes w) (dates w))
    else let now := dbNow E (List.length (log w)) in
         let r := mkRow (Some (nanoid E (ids w))) (Some uid) (Some url0)
                        (Some code) (Some now) (Some now) in
         (Returned r,
          mkWorld (rows w ++ [r]) sent (S (ids w)) (codes w) (dates w)).
Proof.
  intros Ht Hreach Hid Hlen. unfold attempt, sendInsert, attemptValues. cbn.
  rewrite Hreach, (insert_declared _ _ _ _ _ _ _ _ _ Ht Hlen), Hid.
  destruct (holdsCode (rows w) code); reflexivity.
Qed.

(** Whatever the reply, an attempt sends exactly one statement, reads the id
    generator once, and either leaves the rows alone or adds the returned
    row at the end. *)
Lemma attempt_effect E w url0 uid code :
  let '(reply, w') := attempt E w url0 uid code in
  log w' = log w ++ [Insert (attemptValues E w url0 uid code)]
  /\ ids w' = S (ids w) /\ codes w' = codes w /\ dates w' = dates w
  /\ match reply with
     | Returned r =>
         rows w' = rows w ++ [r]
         /\ isLink (env_table E) r = true
         /\ coerce (shortCode (env_table E)) (Some code) = Done (r_shortCode r)
     | _ => rows w' = rows w
     end.
Proof.
  unfold attempt, sendInsert. cbn.
  destruct (reachable E _); [|cbn; auto].
  destruct (insert _ _ _ _) as [[rs' r]|e] eqn:Hins; cbn; [|auto].
  apply insert_Done in Hins.
  destruct Hins as (-> & _ & _ & _ & Hcode & _ & _ & Hlink & _).
  cbn in Hcode. auto 10.
Qed.

(* ================================================================== *)
(** * 13. Generated codes: retry on collision *)
(* ================================================================== *)

Section GenerationLoop.

Variable E : Env.
Variables url0 uid : string.
Hypothesis Htable : declared (env_table E).

Lemma afterCollisions_0 w : afterCollisions E w url0 uid 0 = w.
Proof.
  destruct w as [rs lg i c d]. unfold afterCollisions. cbn.
  now rewrite app_nil_r, !Nat.add_0_r.
Qed.

Lemma afterCollisions_S w n :
  afterCollisions E
    (mkWorld (rows w)
             (log w ++ [generatedInsert E w url0 uid 0])
             (S (ids w)) (S (codes w)) (dates w)) url0 uid n
  = afterCollisions E w url0 uid (S n).
Proof.
  unfold afterCollisions. cbn [rows log ids codes dates].
  rewrite <- app_assoc. cbn [app seq map].
  rewrite <- seq_shift, map_map.
  f_equal; [|lia|lia].
  f_equal. f_equal. apply map_ext. intro k.
  unfold generatedInsert. cbn [ids codes].
  now rewrite !Nat.add_succ_r.
Qed.

(** [n] collisions in a row use up [n] attempts and change nothing but the
    log and the generators. *)
Lemma generate_collisions n : forall left w,
  n <= left -> wellServed E w n -> collide E w n ->
  generate E left w url0 uid
  = generate E (left - n) (afterCollisions E w url0 uid n) url0 uid.
Proof.
  induction n as [|n IH]; intros left w Hle Hserved Hcoll.
  - now rewrite Nat.sub_0_r, afterCollisions_0.
  - destruct left as [|left]; [lia|].
    destruct (Hserved 0 ltac:(lia)) as (Hreach & Hid & Hlen).
    pose proof (Hcoll 0 ltac:(lia)) as Htaken.
    rewrite !Nat.add_0_r in *.
    cbn [generate Nat.sub].
    rewrite attempt_reply; cbn [rows log ids codes dates]; auto.
    rewrite Htaken. cbv zeta.
    rewrite (proj2 (isShortCodeConflict_declared _ _ Htable) eq_refl).
    unfold attemptValues. cbn [ids].
    replace (Insert _) with (generatedInsert E w url0 uid 0)
      by (unfold generatedInsert; now rewrite !Nat.add_0_r).
    rewrite IH; [now rewrite afterCollisions_S | lia | |].
    + intros k Hk. destruct (Hserved (S k) ltac:(lia)) as (R & I & L).
      cbn [rows log ids codes]. rewrite length_app. cbn [List.length].
      rewrite <- Nat.add_assoc. cbn [Nat.add].
      rewrite !Nat.add_succ_r in *. auto.
    + intros k Hk. pose proof (Hcoll (S k) ltac:(lia)) as T.
      cbn [rows codes]. now rewrite Nat.add_succ_r in T.
Qed.

End GenerationLoop.

(** C2.  With no custom code and a valid URL, against a store that answers
    and with fresh ids: attempt [k] sends the [k]-th next candidate of the
    generator.  When the first [N] candidates are taken and the next one is
    free, [N] below the bound of 5, the allocation succeeds with that
    candidate after exactly [N + 1] INSERT statements; when [N] is at or
    above the bound it ends with [AllocationExhausted] after exactly 5
    statements, the rows unchanged. *)
Theorem allocate_generated_retry :
  forall (E : Env) (w : World) (url0 uid : string) (N : nat),
    declared (env_table E) ->
    isValidUrl E url0 = true ->
    collide E w N ->
    (N < maxAttempts ->
     wellServed E w (S N) ->
     holdsCode (rows w) (generateShortCode E (codes w + N)) = false ->
     let now := dbNow E (List.length (log w) + N) in
     let link := mkRow (Some (nanoid E (ids w + N))) (Some uid) (Some url0)
                       (Some (generateShortCode E (codes w + N)))
                       (Some now) (Some now) in
     allocate E w url0 uid None
     = (Ok link,
        mkWorld (rows w ++ [link])
                (log w ++ map (generatedInsert E w url0 uid) (seq 0 (S N)))
                (ids w + S N) (codes w + S N) (dates w)))
    /\ (maxAttempts <= N ->
        wellServed E w maxAttempts ->
        allocate E w url0 uid None
        = (Error AllocationExhausted,
           afterCollisions E w url0 uid maxAttempts)).
Proof.
  intros E w url0 uid N Ht Hurl Hcoll. split.
  - intros HN Hserved Hfree now link.
    unfold allocate. rewrite Hurl. cbn [negb].
    rewrite (generate_collisions E url0 uid Ht N maxAttempts w); auto; try lia.
    2:{ intros k Hk. apply Hserved. lia. }
    destruct (maxAttempts - N) as [|m] eqn:Hm; [lia|].
    destruct (Hserved N (Nat.lt_succ_diag_r N)) as (Hreach & Hid & Hlen).
    cbn [generate]. unfold afterCollisions at 1 2 3 4 5 6.
    cbn [rows log ids codes dates].
    rewrite attempt_reply; cbn [rows log ids codes dates]; auto.
    + rewrite Hfree. cbv zeta. unfold attemptValues. cbn [ids].
      rewrite length_app, length_map, length_seq.
      fold now. fold link.
      rewrite seq_S, map_app, app_assoc. cbn [map Nat.add].
      unfold generatedInsert at 3.
      repeat f_equal; lia.
    + now rewrite length_app, length_map, length_seq.
  - intros HN Hserved.
    unfold allocate. rewrite Hurl. cbn [negb].
    rewrite (generate_collisions E url0 uid Ht maxAttempts maxAttempts w).
    + now rewrite Nat.sub_diag.
    + apply le_n.
    + exact Hserved.
    + intros k Hk. apply Hcoll. lia.
Qed.

Lemma allocate_generated_retry_witness :
  fst (allocate (exampleEnv links) twoTaken "https://example.com" "u1" None)
  = Ok (mkRow (Some "idxx") (Some "u1") (Some "https://example.com")
              (Some "cxx") (Some 1002%Z) (Some 1002%Z)).
Proof.
  destruct (allocate_generated_retry (exampleEnv links) twoTaken
              "https://example.com" "u1" 2 (or_introl eq_refl) eq_refl)
    as [Hok _].
  - intros k Hk. do 2 (destruct k as [|k]; [reflexivity|]). lia.
  - rewrite Hok; [reflexivity | unfold maxAttempts; lia | | reflexivity].
    intros k Hk.
    do 3 (destruct k as [|k];
          [repeat split; try reflexivity; cbn; unfold maxCodeLength; lia|]).
    lia.
Defined.

(** Five candidates taken: the loop gives up after five statements. *)
Example allocate_exhausted :
  let taken5 :=
      map (fun k => mkRow (Some (stamp "r" k)) (Some "u0")
                          (Some "https://a.example") (Some (stamp "c" k))
                          (Some 1%Z) (Some 1%Z)) (seq 0 5) in
  let w := mkWorld taken5 [] 0 0 0 in
  let out := allocate (exampleEnv links) w "https://example.com" "u1" None in
  fst out = Error AllocationExhausted
  /\ rows (snd out) = rows w
  /\ List.length (log (snd out)) = 5.
Proof. vm_compute. auto. Qed.

(* ================================================================== *)
(** * 14. Custom codes, invalid URLs, totality *)
(* ================================================================== *)

Lemma isValidCustomCode_length code :
  isValidCustomCode code = true -> String.length code <= maxCodeLength.
Proof.
  unfold isValidCustomCode. rewrite andb_true_iff. intros [H _].
  now apply Nat.leb_le.
Qed.

Lemma fits_declared t code :
  declared t -> String.length code <= maxCodeLength ->
  fits (col_type (shortCode t)) (Some code).
Proof. intros [-> | ->] H; cbn; [exact H | exact I]. Qed.

(** One INSERT with the custom code, and what each reply leads to. *)
Lemma allocate_custom_once E w url0 uid code :
  declared (env_table E) ->
  isValidUrl E url0 = true ->
  isValidCustomCode code = true ->
  let res := fst (allocate E w url0 uid (Some code)) in
  let w' := snd (allocate E w url0 uid (Some code)) in
  log w' = log w ++ [Insert (mkNewLink (Some (nanoid E (ids w))) (Some uid)
                                       (Some url0) (Some code) None None)]
  /\ codes w' = codes w
  /\ (forall link, res = Ok link ->
        r_shortCode link = Some code /\ rows w' = rows w ++ [link])
  /\ (fst (attempt E w url0 uid code)
      = Refused (UniqueViolation "links_short_code_unique") ->
      res = Error CodeAlreadyExists /\ rows w' = rows w).
Proof.
  intros Ht Hurl Hcode res w'. subst res w'.
  unfold allocate. rewrite Hurl, Hcode. cbn [negb].
  pose proof (attempt_effect E w url0 uid code) as Heff.
  destruct (attempt E w url0 uid code) as [[r|e|] w2].
  - destruct Heff as (Hlog & _ & Hcodes & _ & Hrows & _ & Hcoerce).
    rewrite coerce_fits in Hcoerce
      by (apply fits_declared; [exact Ht | now apply isValidCustomCode_length]).
    injection Hcoerce as Hc.
    cbn [fst snd]. split; [exact Hlog|]. split; [exact Hcodes|]. split.
    + intros link [= <-]. split; [now symmetry | exact Hrows].
    + discriminate.
  - destruct Heff as (Hlog & _ & Hcodes & _ & Hrows).
    cbn [fst snd].
    destruct (isShortCodeConflict (env_table E) e) eqn:Hconf; cbn [fst snd];
      (split; [exact Hlog|]; split; [exact Hcodes|]; split; [discriminate|]).
    + intros _. now split.
    + intros [= ->].
      rewrite (proj2 (isShortCodeConflict_declared _ _ Ht) eq_refl) in Hconf.
      discriminate.
  - destruct Heff as (Hlog & _ & Hcodes & _ & Hrows).
    cbn [fst snd]. split; [exact Hlog|]. split; [exact Hcodes|].
    split; discriminate.
Qed.

(** C3.  With a valid URL and a valid custom code, [allocate] sends exactly
    one INSERT, carrying exactly that code, and draws no candidate.  If it
    succeeds, the returned link has that code and is the one row added.
    If the store answers with the violation of the unique short-code
    constraint, as it does when it is reached with a fresh id and some row
    holds the code, the result is [CodeAlreadyExists] and the rows are as
    before. *)
Theorem allocate_custom_code :
  forall (E : Env) (w : World) (url0 uid code : string),
    declared (env_table E) ->
    isValidUrl E url0 = true ->
    isValidCustomCode code = true ->
    let res := fst (allocate E w url0 uid (Some code)) in
    let w' := snd (allocate E w url0 uid (Some code)) in
    log w' = log w ++ [Insert (mkNewLink (Some (nanoid E (ids w))) (Some uid)
                                         (Some url0) (Some code) None None)]
    /\ codes w' = codes w
    /\ (forall link, res = Ok link ->
          r_shortCode link = Some code /\ rows w' = rows w ++ [link])
    /\ (fst (attempt E w url0 uid code)
        = Refused (UniqueViolation "links_short_code_unique") ->
        res = Error CodeAlreadyExists /\ rows w' = rows w)
    /\ (reachable E (List.length (log w)) = true ->
        holdsId (rows w) (nanoid E (ids w)) = false ->
        holdsCode (rows w) code = true ->
        res = Error CodeAlreadyExists /\ rows w' = rows w).
Proof.
  intros E w url0 uid code Ht Hurl Hcode res w'.
  destruct (allocate_custom_once E w url0 uid code Ht Hurl Hcode)
    as (Hlog & Hcodes & Hok & Hrefused).
  repeat (split; [assumption|]).
  intros Hreach Hid Htaken. apply Hrefused.
  rewrite attempt_reply; auto using isValidCustomCode_length.
  now rewrite Htaken.
Qed.

Lemma allocate_custom_code_witness :
  fst (allocate (exampleEnv links) myLinkTaken "https://other.com" "uid2"
                (Some "my-link")) = Error CodeAlreadyExists
  /\ rows (snd (allocate (exampleEnv links) myLinkTaken "https://other.com"
                         "uid2" (Some "my-link"))) = rows myLinkTaken.
Proof.
  exact (proj2 (proj2 (proj2 (proj2
           (allocate_custom_code (exampleEnv links) myLinkTaken
              "https://other.com" "uid2" "my-link"
              (or_introl eq_refl) eq_refl eq_refl)))) eq_refl eq_refl eq_refl).
Defined.

(** The example of the design document: ["my-link"] is allocated once; the
    second request for it ends with [CodeAlreadyExists] and adds no row. *)
Example allocate_my_link :
  let E := exampleEnv links in
  let '(res1, w1) := allocate E emptyWorld "https://example.com" "uid"
                              (Some "my-link") in
  let '(res2, w2) := allocate E w1 "https://other.com" "uid2" (Some "my-link") in
  w1 = myLinkTaken
  /\ (exists link, res1 = Ok link /\ r_shortCode link = Some "my-link")
  /\ res2 = Error CodeAlreadyExists /\ rows w2 = rows w1.
Proof. vm_compute. repeat split. eexists. split; reflexivity. Qed.

(** C4.  A URL that fails the validity check ends the allocation at once
    with [InvalidURL], whatever the user and the custom code: the world is
    the same afterwards, so no statement was sent and no row created. *)
Theorem allocate_invalid_url :
  forall (E : Env) (w : World) (url0 uid : string) (customCode : option string),
    isValidUrl E url0 = false ->
    allocate E w url0 uid customCode = (Error InvalidURL, w).
Proof.
  intros E w url0 uid customCode H. unfold allocate. now rewrite H.
Qed.

Lemma allocate_invalid_url_witness :
  allocate (exampleEnv links) twoTaken "not-a-url" "uid" None
  = (Error InvalidURL, twoTaken).
Proof.
  apply (allocate_invalid_url (exampleEnv links) twoTaken "not-a-url" "uid" None).
  reflexivity.
Defined.

Lemma generate_settled E url0 uid left : forall w,
  settled E w left (generate E left w url0 uid).
Proof.
  induction left as [|left IH]; intro w; cbn [generate].
  - cbn. split; [lia|]. split; [reflexivity | tauto].
  - pose proof (attempt_effect E
      (mkWorld (rows w) (log w) (ids w) (S (codes w)) (dates w)) url0 uid
      (generateShortCode E (codes w))) as Heff.
    destruct (attempt _ _ _ _ _) as [[r|e|] w2]; cbn [rows log] in Heff.
    + destruct Heff as (Hlog & _ & _ & _ & Hrows & Hlink & _).
      cbn. rewrite Hlog, length_app. cbn. split; [lia | auto].
    + destruct Heff as (Hlog & _ & _ & _ & Hrows).
      destruct (isShortCodeConflict (env_table E) e).
      * specialize (IH w2). unfold settled in *.
        destruct (generate E left w2 url0 uid) as [res w3].
        rewrite Hlog, length_app, Hrows in IH. cbn in IH.
        destruct IH as [Hlen Hres]. split; [lia | exact Hres].
      * cbn. rewrite Hlog, length_app. cbn. split; [lia|].
        split; [exact Hrows | tauto].
    + destruct Heff as (Hlog & _ & _ & _ & Hrows).
      cbn. rewrite Hlog, length_app. cbn. split; [lia|].
      split; [exact Hrows | tauto].
Qed.

Lemma allocate_settled E w url0 uid customCode :
  settled E w maxAttempts (allocate E w url0 uid customCode).
Proof.
  unfold allocate.
  destruct (negb (isValidUrl E url0)).
  { split; [lia|]. split; [reflexivity | cbn; tauto]. }
  destruct customCode as [code|]; [|apply generate_settled].
  destruct (negb (isValidCustomCode code)).
  { split; [lia|]. split; [reflexivity | cbn; tauto]. }
  pose proof (attempt_effect E w url0 uid code) as Heff.
  unfold settled.
  destruct (attempt _ _ _ _ _) as [[r|e|] w2].
  - destruct Heff as (Hlog & _ & _ & _ & Hrows & Hlink & _).
    rewrite Hlog, length_app. cbn. split; [unfold maxAttempts; lia | auto].
  - destruct Heff as (Hlog & _ & _ & _ & Hrows).
    destruct (isShortCodeConflict (env_table E) e);
      rewrite Hlog, length_app; cbn; (split; [unfold maxAttempts; lia|]);
      (split; [exact Hrows | tauto]).
  - destruct Heff as (Hlog & _ & _ & _ & Hrows).
    rewrite Hlog, length_app. cbn. split; [unfold maxAttempts; lia|].
    split; [exact Hrows | tauto].
Qed.

(** Each of the five error kinds is the result of some call. *)
Example every_error_kind_occurs :
  let E := exampleEnv links in
  let down := mkEnv links httpUrl (stamp "id") (stamp "c")
                    (fun k => Z.of_nat k) (fun _ => false)
                    (fun k => Z.of_nat k) in
  let full := mkWorld (map (fun k => mkRow (Some (stamp "r" k)) (Some "u0")
                                           (Some "https://a.example")
                                           (Some (stamp "c" k))
                                           (Some 1%Z) (Some 1%Z))
                           (seq 0 5)) [] 0 0 0 in
  fst (allocate E emptyWorld "not-a-url" "uid" None) = Error InvalidURL
  /\ fst (allocate E emptyWorld "https://example.com" "uid" (Some "my link"))
     = Error InvalidCustomCode
  /\ fst (allocate E myLinkTaken "https://other.com" "uid2" (Some "my-link"))
     = Error CodeAlreadyExists
  /\ fst (allocate E full "https://example.com" "uid" None)
     = Error AllocationExhausted
  /\ fst (allocate down emptyWorld "https://example.com" "uid" None)
     = Error StoreUnavailable.
Proof. vm_compute. repeat split. Qed.

(** C5.  [allocate] is a total function: on every input, in every world and
    environment, it ends after at most 5 statements, either with a link that
    satisfies the NOT NULL columns of the table and is the one row added to
    it, or with one of the five error kinds and the rows unchanged. *)
Theorem allocate_total :
  forall (E : Env) (w : World) (url0 uid : string) (customCode : option string),
    let '(res, w') := allocate E w url0 uid customCode in
    List.length (log w') <= List.length (log w) + maxAttempts
    /\ match res with
       | Ok link => rows w' = rows w ++ [link]
                    /\ isLink (env_table E) link = true
       | Error kind => rows w' = rows w /\ In kind errorKinds
       end.
Proof. intros E w url0 uid customCode. apply allocate_settled. Qed.

(* ================================================================== *)
(** * 15. Bounds on the stored cells *)
(* ================================================================== *)

(** The claim "the id of a persisted row is never null or empty" fails on
    the empty string, which a [text PRIMARY KEY NOT NULL] column takes:
    this INSERT is accepted under [db/schema.ts] and the stored row has the
    empty id. *)
Lemma empty_id_is_persisted :
  let v := mkNewLink (Some "") (Some "uid") (Some "https://example.com")
                     (Some "my-link") None None in
  let r := mkRow (Some "") (Some "uid") (Some "https://example.com")
                 (Some "my-link") (Some 1000%Z) (Some 1000%Z) in
  insert links 1000 [] v = Done ([r], r)
  /\ rows (run (exampleEnv links) emptyWorld [Raw (Insert v)]) = [r]
  /\ r_id r = Some ""
  /\ ~ (exists i, r_id r = Some i /\ i <> "").
Proof.
  repeat split. intros (i & Hi & Hne). injection Hi as <-. now apply Hne.
Qed.

(** The migration declares [short_code] as [text]: the same INSERT with a
    short code of 21 characters is refused under [db/schema.ts] and
    accepted under the migration. *)
Example long_code_under_each_declaration :
  let v := mkNewLink (Some "id") (Some "uid") (Some "https://example.com")
                     (Some "abcdefghijklmnopqrstu") None None in
  insert links 1000 [] v = Rejected (StringDataRightTruncation "short_code")
  /\ exists r, insert links_0000 1000 [] v = Done ([r], r)
               /\ r_shortCode r = Some "abcdefghijklmnopqrstu".
Proof. split; [reflexivity|]. eexists. split; reflexivity. Qed.

(** C6, amended.  [db/schema.ts] declares [short_code] as [varchar(20)] and
    [id] as primary key, hence NOT NULL.  From an empty table, after any
    sequence of allocations and raw statements, every row has a non-NULL
    id under either declaration, and under the declaration of
    [db/schema.ts] a short code of at most 20 characters. *)
Theorem persisted_cells_bounded :
  col_type (shortCode links) = SqlVarchar 20
  /\ col_notNull (id links) = true
  /\ forall (E : Env) (w : World) (ops : list Op) (r : Row),
      declared (env_table E) -> rows w = [] ->
      In r (rows (run E w ops)) ->
      (exists i, r_id r = Some i)
      /\ (env_table E = links ->
          exists c, r_shortCode r = Some c /\ String.length c <= 20).
Proof.
  split; [reflexivity|]. split; [reflexivity|].
  intros E w ops r Ht Hw Hin.
  assert (Hcons : Consistent (env_table E) (rows (run E w ops))).
  { apply run_Consistent. rewrite Hw. apply Consistent_nil. }
  destruct Hcons as [Hl Hf _ _].
  pose proof (proj1 (Forall_forall _ _) Hl r Hin) as Hlink.
  pose proof (proj1 (Forall_forall _ _) Hf r Hin) as Hfit.
  destruct (isLink_declared _ r Ht Hlink) as (i & u & l & c & ca & ua & ->).
  cbn. split; [now exists i|].
  intro Hlinks. rewrite Hlinks in Hfit. cbn in Hfit. now exists c.
Qed.

Lemma persisted_cells_bounded_witness :
  (exists i, Some "id" = Some i)
  /\ (links = links ->
      exists c, Some "my-link" = Some c /\ String.length c <= 20).
Proof.
  apply (proj2 (proj2 persisted_cells_bounded) (exampleEnv links) emptyWorld
           [Allocate "https://example.com" "uid" (Some "my-link")]
           (mkRow (Some "id") (Some "uid") (Some "https://example.com")
                  (Some "my-link") (Some 1000%Z) (Some 1000%Z))
           (or_introl eq_refl) eq_refl).
  cbn. left. reflexivity.
Defined.

(* ================================================================== *)
(** * 16. Timestamps *)
(* ================================================================== *)

(** The claim "updatedAt is refreshed on every mutation of the row" fails:
    the column has a default for INSERT and no [$onUpdate].  This UPDATE,
    sent at time 2000, changes the URL of the row and leaves [updated_at]
    at 1000. *)
Lemma updatedAt_is_not_refreshed :
  let r := mkRow (Some "id") (Some "uid") (Some "https://example.com")
                 (Some "my-link") (Some 1000%Z) (Some 1000%Z) in
  let r' := mkRow (Some "id") (Some "uid") (Some "https://changed.example")
                  (Some "my-link") (Some 1000%Z) (Some 1000%Z) in
  col_onUpdate (updatedAt links) = None
  /\ update links 2000 [r] "id"
            (mkNewLink None None (Some "https://changed.example") None None None)
     = Done [r']
  /\ r' <> r
  /\ r_updatedAt r' = r_updatedAt r
  /\ r_updatedAt r' <> Some 2000%Z.
Proof. repeat split; discriminate. Qed.

Lemma cellEqb_false_ne linkId (v : option string) :
  cellEqb String.eqb linkId v = false <-> v <> Some linkId.
Proof.
  destruct v as [s|]; cbn.
  - rewrite String.eqb_neq. split; intro H; congruence.
  - split; [discriminate | reflexivity].
Qed.

Lemma rewritten_updatedFrom t now linkId set r r' :
  declared t -> rewritten t now linkId set r r' -> updatedFrom linkId set r r'.
Proof.
  intros Ht. unfold rewritten, updatedFrom.
  destruct (cellEqb String.eqb linkId (r_id r)) eqn:Hm.
  - intro H. apply updateRow_Done in H.
    destruct H as (_ & _ & _ & _ & Hc & Hu).
    assert (Hne : r_id r <> Some linkId -> False).
    { intro Hne. apply cellEqb_false_ne in Hne. congruence. }
    split; [intro Hne'; now destruct (Hne Hne')|].
    rewrite Hc, Hu.
    destruct Ht as [-> | ->]; cbn; unfold assign; cbn;
      (repeat split; [now intros -> | now intros -> | now intros _ z ->]).
  - intros ->. repeat split; auto.
    intro Hid. apply cellEqb_false_ne in Hm. congruence.
Qed.

(** C7, amended.  [created_at] and [updated_at] are filled when the row is
    inserted, with the value supplied or else the time of the statement.
    Afterwards an INSERT, and so an allocation, leaves every existing row
    as it is, as does a DELETE for the rows it keeps; an UPDATE leaves rows
    with another id as they are, and changes [created_at] or [updated_at]
    of a row only when it sets that column: the table refreshes neither
    by itself. *)
Theorem timestamps_frame :
  (forall t now rs v rs' r,
      declared t -> insert t now rs v = Done (rs', r) ->
      rs' = rs ++ [r]
      /\ r_createdAt r = Some (orNow (n_createdAt v) now)
      /\ r_updatedAt r = Some (orNow (n_updatedAt v) now))
  /\ (forall rs linkId r, In r (delete rs linkId) -> In r rs)
  /\ (forall t now rs linkId set rs',
         declared t -> update t now rs linkId set = Done rs' ->
         Forall2 (updatedFrom linkId set) rs rs')
  /\ (forall E w url0 uid customCode,
         let w' := snd (allocate E w url0 uid customCode) in
         rows w' = rows w \/ exists link, rows w' = rows w ++ [link]).
Proof.
  split; [|split; [|split]].
  - intros t now rs v rs' r Ht H. apply insert_Done in H.
    destruct H as (-> & _ & _ & _ & _ & Hc & Hu & _).
    rewrite Hc, Hu.
    destruct Ht as [-> | ->]; cbn;
      destruct (n_createdAt v), (n_updatedAt v); cbn; auto.
  - intros rs linkId r H. unfold delete in H. now apply filter_In in H.
  - intros t now rs linkId set rs' Ht H. apply update_shape in H.
    induction H as [|r r' rs rs' Hr _ IH]; constructor; [|exact IH].
    exact (rewritten_updatedFrom _ _ _ _ _ _ Ht Hr).
  - intros E w url0 uid customCode w'. subst w'.
    pose proof (allocate_settled E w url0 uid customCode) as H.
    unfold settled in H.
    destruct (allocate E w url0 uid customCode) as [[link|kind] w2];
      destruct H as (_ & H & _); cbn; eauto.
Qed.

Lemma timestamps_frame_witness :
  Forall2 (updatedFrom "id"
             (mkNewLink None None (Some "https://changed.example") None None None))
          (rows myLinkTaken)
          [ mkRow (Some "id") (Some "uid") (Some "https://changed.example")
                  (Some "my-link") (Some 1000%Z) (Some 1000%Z) ].
Proof.
  apply (proj1 (proj2 (proj2 timestamps_frame)) links 2000%Z (rows myLinkTaken)
           "id" (mkNewLink None None (Some "https://changed.example")
                           None None None)).
  - left. reflexivity.
  - reflexivity.
Defined.

(* ================================================================== *)
(** * 17. The seed script *)
(* ================================================================== *)

Lemma holdsCode_snoc rs r code :
  holdsCode (rs ++ [r]) code
  = holdsCode rs code || cellEqb String.eqb code (r_shortCode r).
Proof.
  unfold holdsCode. rewrite map_app, existsb_app. cbn. now rewrite orb_false_r.
Qed.

Lemma holdsId_snoc rs r i :
  holdsId (rs ++ [r]) i = holdsId rs i || cellEqb String.eqb i (r_id r).
Proof.
  unfold holdsId. rewrite map_app, existsb_app. cbn. now rewrite orb_false_r.
Qed.

(** One turn of the loop, under either declaration, for a short code within
    20 characters. *)
Lemma seed_turn E w link :
  declared (env_table E) ->
  String.length (ex_shortCode link) <= maxCodeLength ->
  let '(v, w1) := seedValues E w link in
  sendInsert E w1 v
  = let sent := log w ++ [Insert v] in
    let r := mkRow (Some (nanoid E (ids w))) (Some seedUserId)
                   (Some (ex_url link)) (Some (ex_shortCode link))
                   (Some (date E (dates w))) (Some (date E (S (dates w)))) in
    let w2 rs := mkWorld rs sent (S (ids w)) (codes w) (S (S (dates w))) in
    if reachable E (List.length (log w))
    then if holdsId (rows w) (nanoid E (ids w))
         then (Refused (UniqueViolation "links_pkey"), w2 (rows w))
         else if holdsCode (rows w) (ex_shortCode link)
              then (Refused (UniqueViolation "links_short_code_unique"),
                    w2 (rows w))
              else (Returned r, w2 (rows w ++ [r]))
    else (Unreachable, w2 (rows w)).
Proof.
  intros Ht Hlen. unfold seedValues, sendInsert. cbn [rows log ids codes dates].
  destruct (reachable E _); [|reflexivity].
  rewrite (insert_declared _ _ _ _ _ _ _ _ _ Ht Hlen).
  destruct (holdsId _ _); [reflexivity|].
  destruct (holdsCode _ _); reflexivity.
Qed.

Section SeedLoop.

Variable E : Env.
Hypothesis Htable : declared (env_table E).

Lemma insertable_next link rest w r sent i d :
  insertable (link :: rest) w ->
  r_shortCode r = Some (ex_shortCode link) ->
  insertable rest (mkWorld (rows w ++ [r]) sent i (codes w) d).
Proof.
  intros (Hlen & Hnd & Hfree) Hr. inversion Hlen; inversion Hnd; subst.
  repeat split; try assumption.
  intros l Hl. cbn [rows]. rewrite holdsCode_snoc, Hr. cbn.
  rewrite (Hfree l (or_intror Hl)). cbn.
  apply String.eqb_neq. intros Heq.
  match goal with H : ~ In _ (map ex_shortCode rest) |- _ => apply H end.
  rewrite <- Heq. now apply in_map.
Qed.

(** The loop never fails on the uniqueness of the short code. *)
Lemma seedLoop_no_code_conflict todo : forall w,
  insertable todo w ->
  fst (seedLoop E todo w)
  <> SeedFailed (Refused (UniqueViolation "links_short_code_unique")).
Proof.
  induction todo as [|link rest IH]; intros w Hins; cbn [seedLoop].
  - discriminate.
  - pose proof (seed_turn E w link Htable) as Hturn.
    destruct Hins as (Hlen & Hnd & Hfree).
    specialize (Hturn (Forall_inv Hlen)).
    destruct (seedValues E w link) as [v w1]. rewrite Hturn. cbv zeta.
    destruct (reachable E _); [|discriminate].
    destruct (holdsId _ _); [discriminate|].
    rewrite (Hfree link (or_introl eq_refl)).
    apply IH. now apply (insertable_next link rest w).
Qed.

(** With the store reachable and ids that are new each time, the loop
    completes and stores one row per example link. *)
Lemma seedLoop_completes todo : forall w,
  insertable todo w ->
  (forall k, k < List.length todo ->
             reachable E (List.length (log w) + k) = true
             /\ holdsId (rows w) (nanoid E (ids w + k)) = false) ->
  NoDup (map (fun k => nanoid E (ids w + k)) (seq 0 (List.length todo))) ->
  fst (seedLoop E todo w) = SeedCompleted
  /\ rows (snd (seedLoop E todo w))
     = rows w ++ seededRows E (ids w) (dates w) todo.
Proof.
  induction todo as [|link rest IH]; intros w Hins Hserved Hids;
    cbn [seedLoop seededRows].
  - cbn. now rewrite app_nil_r.
  - pose proof (seed_turn E w link Htable) as Hturn.
    pose proof Hins as (Hlen & Hnd & Hfree).
    specialize (Hturn (Forall_inv Hlen)).
    destruct (seedValues E w link) as [v w1]. rewrite Hturn. cbv zeta.
    destruct (Hserved 0 ltac:(cbn; lia)) as (Hreach & Hid).
    rewrite !Nat.add_0_r in *.
    rewrite Hreach, Hid, (Hfree link (or_introl eq_refl)).
    cbn [List.length seq map] in Hids. rewrite Nat.add_0_r in Hids.
    rewrite <- seq_shift, map_map in Hids.
    inversion Hids as [|? ? Hnotin Hrest]; subst.
    match goal with
    | |- context [seedLoop E rest ?w2] => specialize (IH w2)
    end.
    cbn [rows log ids codes dates] in IH.
    destruct IH as (Hdone & Hrows).
    + now apply (insertable_next link rest w).
    + intros k Hk. destruct (Hserved (S k) ltac:(cbn; lia)) as (R & I).
      rewrite length_app. cbn [List.length].
      replace (List.length (log w) + 1 + k) with (List.length (log w) + S k)
        by lia.
      replace (S (ids w) + k) with (ids w + S k) by lia.
      split; [exact R|].
      rewrite holdsId_snoc, I. cbn.
      apply String.eqb_neq. intro Heq. apply Hnotin.
      rewrite <- Heq. apply in_map_iff. exists k.
      split; [reflexivity | apply in_seq; lia].
    + erewrite map_ext; [exact Hrest|].
      intro k. cbn beta. f_equal. lia.
    + split; [exact Hdone|]. rewrite Hrows, <- app_assoc. reflexivity.
Qed.

(** Every statement the loop sends is an INSERT that supplies an id drawn
    from the id generator. *)
Lemma seedLoop_log todo : forall w,
  exists sent,
    log (snd (seedLoop E todo w)) = log w ++ sent
    /\ Forall (fun s => exists v k, s = Insert v /\ n_id v = Some (nanoid E k))
              sent.
Proof.
  induction todo as [|link rest IH]; intro w; cbn [seedLoop].
  - exists []. cbn. now rewrite app_nil_r.
  - unfold seedValues, sendInsert. cbn [rows log ids codes dates].
    match goal with
    | |- context [Insert ?v0] => set (v := v0)
    end.
    assert (Hv : exists v' k, Insert v = Insert v' /\ n_id v' = Some (nanoid E k))
      by (exists v, (ids w); split; reflexivity).
    assert (Hone : exists sent, log w ++ [Insert v] = log w ++ sent
              /\ Forall (fun s => exists v k, s = Insert v
                                             /\ n_id v = Some (nanoid E k)) sent)
      by (exists [Insert v]; split; [reflexivity | now constructor]).
    destruct (reachable E _); [|exact Hone].
    destruct (insert _ _ _ _) as [[rs' r]|e]; [|exact Hone].
    match goal with
    | |- context [seedLoop E rest ?w2] => destruct (IH w2) as (sent & Hlog & Hall)
    end.
    cbn [log] in Hlog. exists (Insert v :: sent).
    rewrite Hlog, <- app_assoc. split; [reflexivity|]. now constructor.
Qed.

End SeedLoop.

Lemma exampleLinks_codes_distinct : NoDup (map ex_shortCode exampleLinks).
Proof.
  cbn. repeat (constructor; [cbn; intuition discriminate|]). constructor.
Qed.

Lemma exampleLinks_insertable w : rows w = [] -> insertable exampleLinks w.
Proof.
  intro Hw. repeat split.
  - unfold maxCodeLength. repeat (constructor; [cbn; lia|]). constructor.
  - exact exampleLinks_codes_distinct.
  - intros l _. now rewrite Hw.
Qed.

(** C9.  [exampleLinks] has 10 entries; their short codes are pairwise
    different, between 1 and 10 characters long, made of lowercase letters,
    digits and hyphens.  Run on an empty table, under either declaration,
    the seed never fails on the uniqueness of the short code; and when the
    store is reachable and the ten generated ids are pairwise different it
    completes and leaves exactly 10 rows, all of the one user, carrying the
    listed short codes, each within 20 characters. *)
Theorem seed_inserts_ten_links :
  List.length exampleLinks = 10
  /\ NoDup (map ex_shortCode exampleLinks)
  /\ Forall (fun l =>
               1 <= String.length (ex_shortCode l) <= 10
               /\ forallb isSeedCodeChar (list_ascii_of_string (ex_shortCode l))
                  = true) exampleLinks
  /\ forall (E : Env) (w : World),
      declared (env_table E) -> rows w = [] ->
      fst (seedExampleLinks E w)
      <> SeedFailed (Refused (UniqueViolation "links_short_code_unique"))
      /\ ((forall k, k < 10 -> reachable E (List.length (log w) + k) = true) ->
          NoDup (map (fun k => nanoid E (ids w + k)) (seq 0 10)) ->
          let seeded := rows (snd (seedExampleLinks E w)) in
          fst (seedExampleLinks E w) = SeedCompleted
          /\ seeded = seededRows E (ids w) (dates w) exampleLinks
          /\ List.length seeded = 10
          /\ map r_shortCode seeded
             = map (fun l => Some (ex_shortCode l)) exampleLinks
          /\ Forall (fun r =>
                       r_userId r = Some seedUserId
                       /\ exists c, r_shortCode r = Some c
                                    /\ String.length c <= 20) seeded).
Proof.
  split; [reflexivity|]. split; [exact exampleLinks_codes_distinct|].
  split.
  { repeat (constructor; [cbn; split; [lia | reflexivity]|]). constructor. }
  intros E w Ht Hw. split.
  - apply seedLoop_no_code_conflict; [exact Ht|].
    now apply exampleLinks_insertable.
  - intros Hreach Hids seeded.
    destruct (seedLoop_completes E Ht exampleLinks w) as (Hdone & Hrows).
    + now apply exampleLinks_insertable.
    + intros k Hk. split; [now apply Hreach|]. now rewrite Hw.
    + exact Hids.
    + subst seeded. unfold seedExampleLinks. rewrite Hrows, Hw.
      cbn [app]. split; [exact Hdone|]. split; [reflexivity|].
      split; [reflexivity|]. split; [reflexivity|].
      repeat (constructor;
              [split; [reflexivity | eexists; split; [reflexivity | cbn; lia]]|]).
      constructor.
Qed.

Lemma seed_inserts_ten_links_witness :
  fst (seedExampleLinks (exampleEnv links) emptyWorld) = SeedCompleted
  /\ List.length (rows (snd (seedExampleLinks (exampleEnv links) emptyWorld)))
     = 10.
Proof.
  destruct (proj2 (proj2 (proj2 seed_inserts_ten_links))
              (exampleEnv links) emptyWorld (or_introl eq_refl) eq_refl)
    as [_ H].
  destruct H as (Hdone & _ & Hlen & _).
  - intros k _. reflexivity.
  - cbn. repeat (constructor; [cbn; intuition discriminate|]). constructor.
  - split; [exact Hdone | exact Hlen].
Defined.

(* ================================================================== *)
(** * 18. The id column has no default *)
(* ================================================================== *)

(** An INSERT that does not supply the id is refused, under either
    declaration (on the id, unless the short code is refused first). *)
Lemma insert_without_id t now rs v :
  declared t -> n_id v = None ->
  exists e, insert t now rs v = Rejected e
            /\ (e = NotNullViolation "id"
                \/ e = StringDataRightTruncation "short_code").
Proof.
  intros Ht Hid. destruct v as [i u l c ca ua]. cbn in Hid. subst i.
  destruct Ht as [-> | ->]; unfold insert;
    destruct u, l, c; cbn;
    repeat match goal with
           | |- context [if ?b then _ else _] => destruct b; cbn
           end; eauto.
Qed.

(** An accepted INSERT supplied the id, and the row stored carries that id:
    the store neither makes an id up nor changes the one it is given. *)
Lemma insert_keeps_id t now rs v rs' r :
  declared t -> insert t now rs v = Done (rs', r) ->
  exists i, n_id v = Some i /\ r_id r = Some i.
Proof.
  intros Ht H. destruct (n_id v) as [i|] eqn:Hid.
  - exists i. split; [reflexivity|].
    apply insert_Done in H. destruct H as (_ & Hc & _). rewrite Hid in Hc.
    destruct Ht as [-> | ->]; cbn in Hc; now injection Hc as <-.
  - destruct (insert_without_id t now rs v Ht Hid) as (e & He & _).
    rewrite He in H. discriminate H.
Qed.

(** The claim "every insert must supply a non-empty id" fails on the empty
    string: under either declaration an INSERT whose id is the empty string
    is accepted and stored, so an accepted INSERT need not have supplied a
    non-empty id. *)
Lemma insert_accepts_the_empty_id :
  let v := mkNewLink (Some "") (Some "uid") (Some "https://example.com")
                     (Some "my-link") None None in
  (forall t, declared t ->
     exists r, insert t 1000 [] v = Done ([r], r)
               /\ n_id v = Some "" /\ r_id r = Some "")
  /\ ~ (forall t now rs v' rs' r,
          declared t -> insert t now rs v' = Done (rs', r) ->
          exists i, n_id v' = Some i /\ i <> "").
Proof.
  intro v. split.
  - intros t [-> | ->]; eexists; repeat split.
  - intro H.
    destruct (H links 1000%Z [] v _ _ (or_introl eq_refl) eq_refl)
      as (i & Hi & Hne).
    injection Hi as <-. now apply Hne.
Qed.

(** C10.  Neither declaration gives the id column a default, while
    [created_at] and [updated_at] default to the time of the statement;
    an INSERT that leaves the id out is refused, and an accepted INSERT
    supplied an id, which is the id of the row stored: the store never
    makes one up.  Nothing asks the id to be non-empty.  Every statement
    the seed script sends is an INSERT that supplies an id from
    [nanoid()], non-empty when the generator yields non-empty strings. *)
Theorem id_must_be_supplied :
  (forall t, declared t ->
     col_default (id t) = None
     /\ forall now, resolve (createdAt t) now None = Some now
                    /\ resolve (updatedAt t) now None = Some now)
  /\ (forall t now rs v,
         declared t -> n_id v = None ->
         exists e, insert t now rs v = Rejected e)
  /\ (forall t now rs v rs' r,
         declared t -> insert t now rs v = Done (rs', r) ->
         exists i, n_id v = Some i /\ r_id r = Some i)
  /\ (forall E w,
         exists sent,
           log (snd (seedExampleLinks E w)) = log w ++ sent
           /\ Forall (fun s => exists v k,
                          s = Insert v /\ n_id v = Some (nanoid E k)) sent)
  /\ (forall E w,
         (forall k, nanoid E k <> "") ->
         exists sent,
           log (snd (seedExampleLinks E w)) = log w ++ sent
           /\ Forall (fun s => exists v i,
                          s = Insert v /\ n_id v = Some i /\ i <> "") sent).
Proof.
  split; [|split; [|split; [|split]]].
  - intros t [-> | ->]; split; try reflexivity; intro now; split; reflexivity.
  - intros t now rs v Ht Hid.
    destruct (insert_without_id t now rs v Ht Hid) as (e & He & _). eauto.
  - intros t now rs v rs' r. apply insert_keeps_id.
  - intros E w. exact (seedLoop_log E exampleLinks w).
  - intros E w Hne.
    destruct (seedLoop_log E exampleLinks w) as (sent & Hlog & Hall).
    exists sent. split; [exact Hlog|].
    apply (Forall_impl _ (P := fun s => exists v k,
                                    s = Insert v /\ n_id v = Some (nanoid E k)));
      [|exact Hall].
    intros s (v & k & Hs & Hv). exists v, (nanoid E k). auto.
Qed.

Lemma id_must_be_supplied_witness :
  exists e, insert links 1000 []
              (mkNewLink None (Some "uid") (Some "https://example.com")
                         (Some "my-link") None None) = Rejected e.
Proof.
  apply (proj1 (proj2 id_must_be_supplied) links 1000%Z []
           (mkNewLink None (Some "uid") (Some "https://example.com")
                      (Some "my-link") None None)).
  - left. reflexivity.
  - reflexivity.
Defined.

(* ================================================================== *)
(** * 19. Two allocations at once *)
(* ================================================================== *)

Lemma runThread_Finished E n w res :
  runThread E n w (Finished res) = (Finished res, w).
Proof. induction n as [|n IH]; cbn; auto. Qed.

Lemma runThread_Generating E url0 uid left : forall n w,
  left < n ->
  runThread E n w (Generating url0 uid left)
  = (Finished (fst (generate E left w url0 uid)),
     snd (generate E left w url0 uid)).
Proof.
  induction left as [|left IH]; intros n w Hn; (destruct n as [|n]; [lia|]).
  - cbn. apply runThread_Finished.
  - cbn [runThread threadStep generate].
    destruct (attempt _ _ _ _ _) as [[link|e|] w2];
      try (cbn; apply runThread_Finished).
    destruct (isShortCodeConflict _ e).
    + apply IH. lia.
    + cbn. apply runThread_Finished.
Qed.

(** Stepping a call alone, long enough, is [allocate]. *)
Lemma runThread_allocate E n w url0 uid customCode :
  maxAttempts + 2 <= n ->
  runThread E n w (Called url0 uid customCode)
  = (Finished (fst (allocate E w url0 uid customCode)),
     snd (allocate E w url0 uid customCode)).
Proof.
  intro Hn. destruct n as [|n]; [lia|].
  cbn [runThread threadStep]. unfold allocate.
  destruct (negb (isValidUrl E url0)); [apply runThread_Finished|].
  destruct customCode as [code|].
  - destruct (negb (isValidCustomCode code)); [apply runThread_Finished|].
    destruct n as [|n]; [unfold maxAttempts in Hn; lia|].
    cbn [runThread threadStep].
    destruct (attempt _ _ _ _ _) as [[link|e|] w2];
      try (cbn; apply runThread_Finished).
    destruct (isShortCodeConflict _ e); cbn; apply runThread_Finished.
  - apply runThread_Generating. lia.
Qed.

(** A returned row was checked against every row of the table: none holds
    its short code. *)
Lemma attempt_Returned E w url0 uid code r w' :
  keyed (shortCode (env_table E)) = true ->
  attempt E w url0 uid code = (Returned r, w') ->
  rows w' = rows w ++ [r]
  /\ coerce (shortCode (env_table E)) (Some code) = Done (r_shortCode r)
  /\ forall l, In l (rows w) -> r_shortCode l <> r_shortCode r.
Proof.
  intros Hkey. unfold attempt, sendInsert. cbn [rows log ids codes dates].
  destruct (reachable E _); [|discriminate].
  destruct (insert _ _ _ _) as [[rs' r0]|e] eqn:Hins; [|discriminate].
  intros [= -> <-]. apply insert_Done in Hins.
  destruct Hins as (-> & _ & _ & _ & Hcode & _ & _ & _ & _ & Hu).
  change (coerce (shortCode (env_table E)) (Some code) = Done (r_shortCode r))
    in Hcode.
  repeat split; [exact Hcode|].
  intros l Hl Heq. pose proof (coerce_Done _ _ _ Hcode) as [_ Hfilled].
  destruct (r_shortCode r) as [x|] eqn:Hx; [|discriminate Hfilled].
  apply (checkUnique_Done _ _ _ _ _ Hu Hkey).
  apply held_In. rewrite <- Heq. now apply in_map.
Qed.

(** No reply of an attempt removes a row. *)
Lemma attempt_keeps_rows E w url0 uid code l :
  In l (rows w) -> In l (rows (snd (attempt E w url0 uid code))).
Proof.
  intro Hl. pose proof (attempt_effect E w url0 uid code) as Heff.
  destruct (attempt E w url0 uid code) as [[r|e|] w2]; cbn [snd];
    destruct Heff as (_ & _ & _ & _ & Hrows).
  - destruct Hrows as (-> & _). apply in_or_app. now left.
  - now rewrite Hrows.
  - now rewrite Hrows.
Qed.

Lemma owns_keeps_rows E code rs rs' th :
  (forall l, In l rs -> In l rs') -> owns E code rs th -> owns E code rs' th.
Proof.
  intros Hsub. destruct th as [u i [c|]|u i c|u i n|[l|k]]; cbn; auto.
  intros [Hin Hc]. auto.
Qed.

Section Exclusion.

(** Two calls for the same custom code, in any world and any environment
    over a declared table. *)
Variable E : Env.
Variable code : string.
Hypothesis Htable : declared (env_table E).

(** The call [th] takes a step beside the call [other]: both still own
    their state, and they have not both succeeded. *)
Lemma owns_step w th other :
  owns E code (rows w) th -> owns E code (rows w) other ->
  let '(th', w') := threadStep E w th in
  owns E code (rows w') th' /\ owns E code (rows w') other
  /\ forall l l', th' = Finished (Ok l) -> other = Finished (Ok l') -> th = th'.
Proof.
  intros Hth Hother.
  destruct th as [u i [c|]|u i c|u i n|[l|k]]; cbn [owns] in Hth;
    try contradiction; cbn [threadStep].
  - subst c.
    destruct (negb (isValidUrl E u));
      [cbn; repeat split; auto; discriminate|].
    destruct (negb (isValidCustomCode code)); cbn; repeat split; auto;
      discriminate.
  - subst c.
    pose proof (attempt_keeps_rows E w u i code) as Hkeep.
    destruct (attempt E w u i code) as [[r|e|] w2] eqn:Hatt; cbn [snd] in Hkeep.
    + destruct (attempt_Returned E w u i code r w2
                  (declared_keyed_shortCode _ Htable) Hatt)
        as (Hrows & Hc & Hfresh).
      split; [|split].
      * cbn [owns].
        split; [rewrite Hrows; apply in_or_app; right; now left | exact Hc].
      * now apply (owns_keeps_rows E code (rows w)).
      * intros l l' _ ->. cbn [owns] in Hother. destruct Hother as [Hin Hc'].
        exfalso. apply (Hfresh l' Hin). rewrite Hc in Hc'.
        now injection Hc'.
    + destruct (isShortCodeConflict _ e); (split; [exact I|]);
        (split; [now apply (owns_keeps_rows E code (rows w)) | discriminate]).
    + split; [exact I|].
      split; [now apply (owns_keeps_rows E code (rows w)) | discriminate].
  - split; [exact Hth|]. split; [exact Hother | reflexivity].
  - split; [exact I|]. split; [exact Hother | reflexivity].
Qed.

Lemma exclusion_step p t :
  owns E code (rows (world p)) (first p) ->
  owns E code (rows (world p)) (second p) ->
  ~ bothSucceeded p ->
  let p' := poolStep E p t in
  owns E code (rows (world p')) (first p')
  /\ owns E code (rows (world p')) (second p')
  /\ ~ bothSucceeded p'.
Proof.
  intros H1 H2 Hnot. destruct p as [w th1 th2]. cbn [world first second] in *.
  destruct t; cbn [poolStep world first second].
  - pose proof (owns_step w th1 th2 H1 H2) as Hstep.
    destruct (threadStep E w th1) as [th1' w']. cbn [world first second].
    destruct Hstep as (O1 & O2 & Hsame). repeat split; auto.
    intros (l & l' & Hl & Hl'). cbn [first second] in Hl, Hl'.
    apply Hnot. exists l, l'. cbn [first second].
    rewrite (Hsame l l' Hl Hl'). auto.
  - pose proof (owns_step w th2 th1 H2 H1) as Hstep.
    destruct (threadStep E w th2) as [th2' w']. cbn [world first second].
    destruct Hstep as (O2 & O1 & Hsame). repeat split; auto.
    intros (l & l' & Hl & Hl'). cbn [first second] in Hl, Hl'.
    apply Hnot. exists l, l'. cbn [first second].
    rewrite (Hsame l' l Hl' Hl). auto.
Qed.

(** Whatever the schedule, the two calls never both succeed. *)
Lemma exclusion turns : forall p,
  owns E code (rows (world p)) (first p) ->
  owns E code (rows (world p)) (second p) ->
  ~ bothSucceeded p ->
  ~ bothSucceeded (schedule E p turns).
Proof.
  induction turns as [|t turns IH]; intros p H1 H2 Hnot; [exact Hnot|].
  cbn [schedule fold_left].
  destruct (exclusion_step p t H1 H2 Hnot) as (O1 & O2 & Hnot').
  now apply IH.
Qed.

End Exclusion.

Section Race.

(** Two calls with the same custom code [code], in a world [w] where the
    inputs are valid, the code is free, the store answers the next two
    calls and the next two ids are new. *)
Variable E : Env.
Variable w : World.
Variables url1 uid1 url2 uid2 code : string.

Hypothesis Htable : declared (env_table E).
Hypothesis Hurl1 : isValidUrl E url1 = true.
Hypothesis Hurl2 : isValidUrl E url2 = true.
Hypothesis Hcode : isValidCustomCode code = true.
Hypothesis Hfree : holdsCode (rows w) code = false.
Hypothesis Hreach0 : reachable E (List.length (log w)) = true.
Hypothesis Hreach1 : reachable E (S (List.length (log w))) = true.
Hypothesis Hid0 : holdsId (rows w) (nanoid E (ids w)) = false.
Hypothesis Hid1 : holdsId (rows w) (nanoid E (S (ids w))) = false.
Hypothesis Hids : nanoid E (S (ids w)) <> nanoid E (ids w).

Lemma attempt_first url0 uid :
  attempt E w url0 uid code
  = (Returned (winner E w code url0 uid), wonBy E w code url0 uid).
Proof.
  rewrite attempt_reply; auto using isValidCustomCode_length.
  now rewrite Hfree.
Qed.

Lemma attempt_second url0 uid url' uid' :
  exists w2,
    attempt E (wonBy E w code url0 uid) url' uid' code
    = (Refused (UniqueViolation "links_short_code_unique"), w2)
    /\ rows w2 = rows w ++ [winner E w code url0 uid].
Proof.
  rewrite attempt_reply; auto using isValidCustomCode_length.
  - cbn [rows wonBy]. rewrite holdsCode_snoc. cbn.
    rewrite String.eqb_refl, orb_true_r. cbv zeta. eauto.
  - cbn. rewrite length_app. cbn. now rewrite Nat.add_1_r.
  - cbn [rows ids wonBy]. rewrite holdsId_snoc, Hid1. cbn.
    now apply String.eqb_neq.
Qed.

Lemma conflict_is_conflict :
  isShortCodeConflict (env_table E) (UniqueViolation "links_short_code_unique")
  = true.
Proof. now apply isShortCodeConflict_declared. Qed.

(** One turn keeps the pool among those, and takes one step off the call
    whose turn it is, if it has any left. *)
Lemma Raced_step p t :
  Raced E w url1 uid1 url2 uid2 code p ->
  Raced E w url1 uid1 url2 uid2 code (poolStep E p t)
  /\ stepsLeft (first (poolStep E p t)) = stepsLeft (first p) - taken First t
  /\ stepsLeft (second (poolStep E p t)) = stepsLeft (second p) - taken Second t.
Proof.
  intros [th1 th2 [-> | ->] [-> | ->] | th2 [-> | ->] | th1 [-> | ->]
         | w2 Hw2 | w2 Hw2];
    destruct t; cbn [poolStep threadStep world first second];
    rewrite ?Hurl1, ?Hurl2, ?Hcode, ?attempt_first; cbn [negb];
    try (destruct (attempt_second url1 uid1 url2 uid2) as (w3 & -> & Hw3));
    try (destruct (attempt_second url2 uid2 url1 uid1) as (w3 & -> & Hw3));
    rewrite ?conflict_is_conflict;
    (split; [|split; reflexivity]);
    try (now constructor; ((now left) || (now right)));
    try (now constructor).
Qed.

Lemma turnsOf_cons t u turns :
  turnsOf t (u :: turns) = taken t u + turnsOf t turns.
Proof. unfold turnsOf, taken. cbn. now destruct (isTurn t u). Qed.

Lemma Raced_schedule turns : forall p,
  Raced E w url1 uid1 url2 uid2 code p ->
  Raced E w url1 uid1 url2 uid2 code (schedule E p turns)
  /\ stepsLeft (first (schedule E p turns))
     = stepsLeft (first p) - turnsOf First turns
  /\ stepsLeft (second (schedule E p turns))
     = stepsLeft (second p) - turnsOf Second turns.
Proof.
  induction turns as [|t turns IH]; intros p Hp.
  - cbn. rewrite !Nat.sub_0_r. auto.
  - cbn [schedule fold_left].
    destruct (Raced_step p t Hp) as (Hp' & H1 & H2).
    destruct (IH _ Hp') as (Hq & Q1 & Q2).
    fold (schedule E (poolStep E p t) turns).
    rewrite !turnsOf_cons. split; [exact Hq|]. split; lia.
Qed.

(** In every such pool at most one row has been added, and it carries the
    code. *)
Lemma Raced_rows p :
  Raced E w url1 uid1 url2 uid2 code p ->
  rows (world p) = rows w
  \/ exists link, rows (world p) = rows w ++ [link]
                  /\ r_shortCode link = Some code.
Proof.
  intros [th1 th2 _ _ | th2 _ | th1 _ | w2 Hw2 | w2 Hw2]; cbn;
    try (left; reflexivity); right; eauto.
Qed.

(** When both calls are finished, one has the row and the other
    [CodeAlreadyExists]. *)
Lemma Raced_finished p :
  Raced E w url1 uid1 url2 uid2 code p ->
  stepsLeft (first p) = 0 -> stepsLeft (second p) = 0 ->
  exists link,
    r_shortCode link = Some code
    /\ rows (world p) = rows w ++ [link]
    /\ ((first p = Finished (Ok link)
         /\ second p = Finished (Error CodeAlreadyExists))
        \/ (first p = Finished (Error CodeAlreadyExists)
            /\ second p = Finished (Ok link))).
Proof.
  intros [th1 th2 [-> | ->] _ | th2 [-> | ->] | th1 [-> | ->]
         | w2 Hw2 | w2 Hw2]; cbn; try discriminate; intros _ _.
  - exists (winner E w code url1 uid1). auto.
  - exists (winner E w code url2 uid2). auto.
Qed.

End Race.

(** The claim "two concurrent calls with the same custom code always end in
    exactly one success, never zero" fails when the code is taken before
    the calls start: both calls, with valid and different URLs, end with
    [CodeAlreadyExists], and no row is added. *)
Lemma race_for_a_taken_code :
  let p := schedule (exampleEnv links)
                    (mkPool myLinkTaken
                            (Called "https://a.example" "uid1" (Some "my-link"))
                            (Called "https://b.example" "uid2" (Some "my-link")))
                    [First; Second; Second; First] in
  first p = Finished (Error CodeAlreadyExists)
  /\ second p = Finished (Error CodeAlreadyExists)
  /\ rows (world p) = rows myLinkTaken
  /\ ~ (exists link, first p = Finished (Ok link)
                     \/ second p = Finished (Ok link)).
Proof.
  vm_compute. repeat split. intros (link & [H | H]); discriminate H.
Qed.

(** C8, amended.  Two calls of [allocate] with the same custom code run on
    one store, their steps interleaved in any order, each INSERT being one
    step.  Whatever the schedule, the world and the environment, the two
    calls never both return a link.  With valid inputs, the code free at
    the start, the store answering and fresh ids, at most one row is ever
    added; and once each call has had its two turns, exactly one of them has
    returned the link with that code and the other [CodeAlreadyExists]. *)
Theorem concurrent_custom_code :
  forall (E : Env) (w : World) (url1 uid1 url2 uid2 code : string)
         (turns : list Turn),
    declared (env_table E) ->
    let p := schedule E (mkPool w (Called url1 uid1 (Some code))
                                  (Called url2 uid2 (Some code))) turns in
    ~ bothSucceeded p
    /\ (isValidUrl E url1 = true ->
        isValidUrl E url2 = true ->
        isValidCustomCode code = true ->
        holdsCode (rows w) code = false ->
        reachable E (List.length (log w)) = true ->
        reachable E (S (List.length (log w))) = true ->
        holdsId (rows w) (nanoid E (ids w)) = false ->
        holdsId (rows w) (nanoid E (S (ids w))) = false ->
        nanoid E (S (ids w)) <> nanoid E (ids w) ->
        (rows (world p) = rows w
         \/ exists link, rows (world p) = rows w ++ [link]
                         /\ r_shortCode link = Some code)
        /\ (2 <= turnsOf First turns -> 2 <= turnsOf Second turns ->
            exists link,
              r_shortCode link = Some code
              /\ rows (world p) = rows w ++ [link]
              /\ ((first p = Finished (Ok link)
                   /\ second p = Finished (Error CodeAlreadyExists))
                  \/ (first p = Finished (Error CodeAlreadyExists)
                      /\ second p = Finished (Ok link))))).
Proof.
  intros E w url1 uid1 url2 uid2 code turns Ht p. split.
  - apply (exclusion E code Ht); cbn; auto.
    intros (l & l' & Hl & _). discriminate Hl.
  - intros Hu1 Hu2 Hc Hfree Hr0 Hr1 Hi0 Hi1 Hids.
    assert (Hstart : Raced E w url1 uid1 url2 uid2 code
                           (mkPool w (Called url1 uid1 (Some code))
                                     (Called url2 uid2 (Some code))))
      by (constructor; now left).
    destruct (Raced_schedule E w url1 uid1 url2 uid2 code
                Ht Hu1 Hu2 Hc Hfree Hr0 Hr1 Hi0 Hi1 Hids turns _ Hstart)
      as (Hp & H1 & H2).
    fold p in Hp, H1, H2. cbn [first second stepsLeft] in H1, H2. split.
    + exact (Raced_rows E w url1 uid1 url2 uid2 code p Hp).
    + intros T1 T2.
      apply (Raced_finished E w url1 uid1 url2 uid2 code p Hp); lia.
Qed.

Lemma concurrent_custom_code_witness :
  let p := schedule (exampleEnv links)
                    (mkPool emptyWorld
                            (Called "https://example.com" "uid" (Some "my-link"))
                            (Called "https://other.com" "uid2" (Some "my-link")))
                    [First; Second; Second; First] in
  exists link,
    r_shortCode link = Some "my-link"
    /\ rows (world p) = rows emptyWorld ++ [link]
    /\ ((first p = Finished (Ok link)
         /\ second p = Finished (Error CodeAlreadyExists))
        \/ (first p = Finished (Error CodeAlreadyExists)
            /\ second p = Finished (Ok link))).
Proof.
  apply (proj2 (proj2 (concurrent_custom_code (exampleEnv links) emptyWorld
                         "https://example.com" "uid" "https://other.com" "uid2"
                         "my-link" [First; Second; Second; First]
                         (or_introl eq_refl))
                      eq_refl eq_refl eq_refl eq_refl
                      eq_refl eq_refl eq_refl eq_refl
                      ltac:(discriminate))).
  - cbn. lia.
  - cbn. lia.
Defined.

(* ================================================================== *)
(** * 20. More on the table: keys, NOT NULL, acceptance of an INSERT *)
(* ================================================================== *)

Lemma sendAll_Consistent E stmts : forall w,
  Consistent (env_table E) (rows w) ->
  Consistent (env_table E) (rows (sendAll E w stmts)).
Proof.
  induction stmts as [|s stmts IH]; intros w H; cbn; [exact H|].
  apply IH. now apply send_Consistent.
Qed.

Lemma sendAll_reachable_Consistent E w stmts :
  rows w = [] -> Consistent (env_table E) (rows (sendAll E w stmts)).
Proof.
  intro Hw. apply sendAll_Consistent. rewrite Hw. apply Consistent_nil.
Qed.

(** The primary key: from an empty table, whatever statements are sent, two
    rows at different positions have two different ids. *)
Theorem id_unique_always :
  forall (E : Env) (w : World) (stmts : list Statement),
    declared (env_table E) -> rows w = [] ->
    forall (i j : nat) (L1 L2 : Row),
      nth_error (rows (sendAll E w stmts)) i = Some L1 ->
      nth_error (rows (sendAll E w stmts)) j = Some L2 ->
      i <> j ->
      exists a b, r_id L1 = Some a /\ r_id L2 = Some b /\ a <> b.
Proof.
  intros E w stmts Ht Hw i j L1 L2 H1 H2 Hij.
  destruct (sendAll_reachable_Consistent E w stmts Hw) as [Hl _ Hi _].
  specialize (Hi (declared_keyed_id _ Ht)).
  pose proof (proj1 (Forall_forall _ _) Hl) as Hlink.
  destruct (isLink_declared _ L1 Ht (Hlink _ (nth_error_In _ _ H1)))
    as (i1 & u1 & l1 & c1 & ca1 & ua1 & E1).
  destruct (isLink_declared _ L2 Ht (Hlink _ (nth_error_In _ _ H2)))
    as (i2 & u2 & l2 & c2 & ca2 & ua2 & E2).
  exists i1, i2. subst L1 L2. cbn. repeat split.
  intros ->.
  now apply (held_nth_distinct _ r_id _ i j _ _ i2 Hi H1 H2 Hij).
Qed.

Lemma id_unique_always_witness :
  exists a b, Some "k1" = Some a /\ Some "k2" = Some b /\ a <> b.
Proof.
  apply (id_unique_always (exampleEnv links_0000) emptyWorld
           [ Insert (mkNewLink (Some "k1") (Some "u") (Some "https://a.example")
                               (Some "one") None None);
             Insert (mkNewLink (Some "k1") (Some "u") (Some "https://b.example")
                               (Some "two") None None);
             Insert (mkNewLink (Some "k2") (Some "u") (Some "https://c.example")
                               (Some "three") None None) ]
           (or_intror eq_refl) eq_refl 0 1
           (mkRow (Some "k1") (Some "u") (Some "https://a.example")
                  (Some "one") (Some 1000%Z) (Some 1000%Z))
           (mkRow (Some "k2") (Some "u") (Some "https://c.example")
                  (Some "three") (Some 1002%Z) (Some 1002%Z))).
  - reflexivity.
  - reflexivity.
  - discriminate.
Defined.

(** [Link] is sound: from an empty table, whatever statements are sent,
    every row has all six cells filled, so reading it as a [Link] (no
    nullable field) never meets a NULL. *)
Theorem every_row_is_a_Link :
  forall (E : Env) (w : World) (stmts : list Statement) (r : Row),
    declared (env_table E) -> rows w = [] ->
    In r (rows (sendAll E w stmts)) ->
    exists i u l c ca ua,
      r = mkRow (Some i) (Some u) (Some l) (Some c) (Some ca) (Some ua).
Proof.
  intros E w stmts r Ht Hw Hin.
  destruct (sendAll_reachable_Consistent E w stmts Hw) as [Hl _ _ _].
  exact (isLink_declared _ r Ht (proj1 (Forall_forall _ _) Hl r Hin)).
Qed.

Lemma every_row_is_a_Link_witness :
  exists i u l c ca ua,
    mkRow (Some "k1") (Some "u") (Some "https://changed.example")
          (Some "one") (Some 1000%Z) (Some 7%Z)
    = mkRow (Some i) (Some u) (Some l) (Some c) (Some ca) (Some ua).
Proof.
  apply (every_row_is_a_Link (exampleEnv links) emptyWorld
           [ Insert (mkNewLink (Some "k1") (Some "u") (Some "https://a.example")
                               (Some "one") None None);
             Insert (mkNewLink None (Some "u") (Some "https://b.example")
                               (Some "two") None None);
             Update "k1" (mkNewLink None None (Some "https://changed.example")
                                    None None (Some 7%Z)) ]).
  - left. reflexivity.
  - reflexivity.
  - cbn. left. reflexivity.
Defined.

Lemma holdsId_false rs i :
  holdsId rs i = false <->
  forall r, In r rs -> cellEqb String.eqb i (r_id r) = false.
Proof.
  unfold holdsId. induction rs as [|r rs IH]; cbn.
  - split; [intros _ r [] | reflexivity].
  - rewrite orb_false_iff, IH. split.
    + intros [Hr Hrs] r' [<- | Hin]; auto.
    + intro H. split; [apply H; now left | intros r' Hin; apply H; now right].
Qed.

Lemma holdsCode_false rs c :
  holdsCode rs c = false <->
  forall r, In r rs -> cellEqb String.eqb c (r_shortCode r) = false.
Proof.
  unfold holdsCode. induction rs as [|r rs IH]; cbn.
  - split; [intros _ r [] | reflexivity].
  - rewrite orb_false_iff, IH. split.
    + intros [Hr Hrs] r' [<- | Hin]; auto.
    + intro H. split; [apply H; now left | intros r' Hin; apply H; now right].
Qed.

(** An INSERT that leaves out one of the four text columns is refused. *)
Lemma insert_missing_column t now rs i u l c oc ou :
  declared t ->
  (forall s, c = Some s -> String.length s <= maxCodeLength) ->
  i = None \/ u = None \/ l = None \/ c = None ->
  exists e, insert t now rs (mkNewLink i u l c oc ou) = Rejected e.
Proof.
  intros Ht Hlen Hnone.
  assert (Hfit : forall s, c = Some s -> Nat.leb (String.length s) 20 = true).
  { intros s Hs. apply Nat.leb_le. now apply Hlen. }
  destruct c as [s|]; [specialize (Hfit s eq_refl)|];
    destruct i, u, l; try (exfalso; intuition discriminate);
    destruct Ht as [-> | ->]; unfold insert; cbn; rewrite ?Hfit; cbn; eauto.
Qed.

(** What an accepted INSERT shows (short code within 20 characters, either
    declaration): the statement supplied the id, the user id, the URL and
    the short code; no row held that id and no row held that short code;
    the row stored carries the four values as supplied; and the table is
    the one before with that one row more.  The timestamps may be left
    out. *)
Theorem insert_accepted_only_if :
  forall (t : Table) (now : Z) (rs rs' : list Row) (v : NewLink) (r : Row),
    declared t ->
    (forall c, n_shortCode v = Some c -> String.length c <= maxCodeLength) ->
    insert t now rs v = Done (rs', r) ->
    exists i u l c,
      (n_id v = Some i /\ n_userId v = Some u /\ n_url v = Some l
       /\ n_shortCode v = Some c)
      /\ (holdsId rs i = false /\ holdsCode rs c = false)
      /\ (r_id r = Some i /\ r_userId r = Some u /\ r_url r = Some l
          /\ r_shortCode r = Some c)
      /\ List.length rs' = S (List.length rs)
      /\ (forall x, In x rs' <-> In x rs \/ x = r).
Proof.
  intros t now rs rs' [i u l c oc ou] r Ht Hlen H.
  cbn [n_id n_userId n_url n_shortCode] in *.
  assert (Hmissing : i = None \/ u = None \/ l = None \/ c = None -> False).
  { intro Hnone.
    destruct (insert_missing_column t now rs i u l c oc ou Ht Hlen Hnone)
      as (e & He).
    rewrite He in H. discriminate H. }
  destruct i as [i|]; [|exfalso; apply Hmissing; left; reflexivity].
  destruct u as [u|]; [|exfalso; apply Hmissing; right; left; reflexivity].
  destruct l as [l|];
    [|exfalso; apply Hmissing; right; right; left; reflexivity].
  destruct c as [c|];
    [|exfalso; apply Hmissing; right; right; right; reflexivity].
  clear Hmissing.
  rewrite (insert_declared t now rs i u l c oc ou Ht (Hlen c eq_refl)) in H.
  destruct (holdsId rs i) eqn:Hi; [discriminate H|].
  destruct (holdsCode rs c) eqn:Hc; [discriminate H|].
  cbv zeta in H. injection H as <- <-.
  exists i, u, l, c. split; [auto|]. split; [auto|]. split; [cbn; auto|].
  split.
  - rewrite length_app. cbn. lia.
  - intro x. rewrite in_app_iff. cbn. intuition congruence.
Qed.

Lemma insert_accepted_only_if_witness :
  let v := mkNewLink (Some "k2") (Some "u") (Some "https://a.example")
                     (Some "other") None None in
  let r := mkRow (Some "k2") (Some "u") (Some "https://a.example")
                 (Some "other") (Some 1000%Z) (Some 1000%Z) in
  exists i u l c,
    (n_id v = Some i /\ n_userId v = Some u /\ n_url v = Some l
     /\ n_shortCode v = Some c)
    /\ (holdsId (rows myLinkTaken) i = false
        /\ holdsCode (rows myLinkTaken) c = false)
    /\ (r_id r = Some i /\ r_userId r = Some u /\ r_url r = Some l
        /\ r_shortCode r = Some c)
    /\ List.length (rows myLinkTaken ++ [r])
       = S (List.length (rows myLinkTaken))
    /\ (forall x, In x (rows myLinkTaken ++ [r])
                  <-> In x (rows myLinkTaken) \/ x = r).
Proof.
  intros v r.
  apply (insert_accepted_only_if links 1000%Z (rows myLinkTaken)
           (rows myLinkTaken ++ [r]) v r).
  - left. reflexivity.
  - intros c [= <-]. cbn. unfold maxCodeLength. lia.
  - reflexivity.
Defined.

(* ================================================================== *)
(** * 21. DELETE and UPDATE by id *)
(* ================================================================== *)

Lemma delete_absent rs linkId :
  holdsId rs linkId = false -> delete rs linkId = rs.
Proof.
  rewrite holdsId_false. unfold delete. induction rs as [|r rs IH]; intro H.
  - reflexivity.
  - cbn. rewrite (H r (or_introl eq_refl)). cbn. f_equal.
    apply IH. intros r' Hin. apply H. now right.
Qed.

(** Round trip: deleting the id of a row right after its INSERT gives the
    table before the INSERT: the primary key made sure no other row had
    the id. *)
Theorem insert_then_delete :
  forall (t : Table) (now : Z) (rs rs' : list Row) (v : NewLink) (r : Row),
    declared t ->
    insert t now rs v = Done (rs', r) ->
    exists i, r_id r = Some i /\ delete rs' i = rs.
Proof.
  intros t now rs rs' v r Ht H. apply insert_Done in H.
  destruct H as (-> & _ & _ & _ & _ & _ & _ & Hlink & Uid & _).
  destruct (isLink_declared _ r Ht Hlink) as (i & u & l & c & ca & ua & ->).
  exists i. split; [reflexivity|]. cbn [r_id] in Uid.
  assert (Hfree : holdsId rs i = false).
  { apply existsb_cellEqb_false.
    exact (checkUnique_Done t (id t) _ i tt Uid (declared_keyed_id _ Ht)). }
  unfold delete. rewrite filter_app. cbn. rewrite String.eqb_refl. cbn.
  rewrite app_nil_r. now apply delete_absent.
Qed.

Lemma insert_then_delete_witness :
  exists i,
    r_id (mkRow (Some "k2") (Some "u") (Some "https://a.example")
                (Some "other") (Some 1000%Z) (Some 1000%Z)) = Some i
    /\ delete (rows myLinkTaken
               ++ [mkRow (Some "k2") (Some "u") (Some "https://a.example")
                         (Some "other") (Some 1000%Z) (Some 1000%Z)]) i
       = rows myLinkTaken.
Proof.
  apply (insert_then_delete links 1000%Z (rows myLinkTaken) _
           (mkNewLink (Some "k2") (Some "u") (Some "https://a.example")
                      (Some "other") None None)).
  - left. reflexivity.
  - reflexivity.
Defined.

Lemma delete_at_most_one rs linkId :
  NoDup (held (map r_id rs)) ->
  List.length rs <= S (List.length (delete rs linkId)).
Proof.
  induction rs as [|r rs IH]; intro Hnd; cbn; [lia|].
  assert (Htail : NoDup (held (map r_id rs))).
  { cbn in Hnd. destruct (r_id r); [now inversion Hnd | exact Hnd]. }
  destruct (cellEqb String.eqb linkId (r_id r)) eqn:Hm; cbn.
  - destruct (r_id r) as [i|] eqn:Hi; [|discriminate Hm].
    cbn in Hm. apply String.eqb_eq in Hm. subst i.
    cbn in Hnd. rewrite Hi in Hnd. inversion Hnd as [|? ? Hnotin _]; subst.
    fold (delete rs linkId). rewrite delete_absent; [lia|].
    now apply existsb_cellEqb_false.
  - fold (delete rs linkId). specialize (IH Htail). lia.
Qed.

(** DELETE by id, on a table reached from the empty one: the rows left are
    the rows with another id, at most one row goes, and an id that no row
    holds leaves the table as it is. *)
Theorem delete_by_id :
  forall (E : Env) (w : World) (stmts : list Statement) (linkId : string),
    declared (env_table E) -> rows w = [] ->
    let rs := rows (sendAll E w stmts) in
    (forall r, In r (delete rs linkId) <-> In r rs /\ r_id r <> Some linkId)
    /\ List.length rs <= S (List.length (delete rs linkId))
    /\ (holdsId rs linkId = false -> delete rs linkId = rs).
Proof.
  intros E w stmts linkId Ht Hw rs. split; [|split].
  - intro r. unfold delete. rewrite filter_In, negb_true_iff.
    now rewrite cellEqb_false_ne.
  - apply delete_at_most_one.
    destruct (sendAll_reachable_Consistent E w stmts Hw) as [_ _ Hi _].
    exact (Hi (declared_keyed_id _ Ht)).
  - apply delete_absent.
Qed.

Lemma delete_by_id_witness :
  List.length (rows myLinkTaken)
  <= S (List.length (delete (rows myLinkTaken) "id")).
Proof.
  apply (proj1 (proj2 (delete_by_id (exampleEnv links) emptyWorld
                         [Insert (mkNewLink (Some "id") (Some "uid")
                                            (Some "https://example.com")
                                            (Some "my-link") None None)]
                         "id" (or_introl eq_refl) eq_refl))).
Defined.

Lemma updateRows_absent t now linkId set after : forall before,
  (forall r, In r after -> cellEqb String.eqb linkId (r_id r) = false) ->
  updateRows t now linkId set before after = Done (before ++ after).
Proof.
  induction after as [|r rest IH]; intros before H; cbn.
  - now rewrite app_nil_r.
  - rewrite (H r (or_introl eq_refl)), IH.
    + now rewrite <- app_assoc.
    + intros r' Hin. apply H. now right.
Qed.

Lemma rewritten_same_id t now linkId set r r' :
  declared t -> n_id set = None ->
  rewritten t now linkId set r r' -> r_id r' = r_id r.
Proof.
  intros Ht Hset. unfold rewritten.
  destruct (cellEqb String.eqb linkId (r_id r)); [|now intros ->].
  intro H. apply updateRow_Done in H. destruct H as (Hid & _).
  rewrite Hset in Hid.
  destruct Ht as [-> | ->]; cbn in Hid; destruct (r_id r);
    now injection Hid.
Qed.

Lemma rewritten_other_kept t now linkId set rs rs' :
  Forall2 (rewritten t now linkId set) rs rs' ->
  forall r, In r rs -> r_id r <> Some linkId -> In r rs'.
Proof.
  induction 1 as [|r0 r0' rs rs' Hr _ IH]; intros r Hin Hne; [destruct Hin|].
  destruct Hin as [<- | Hin].
  - left. unfold rewritten in Hr.
    apply cellEqb_false_ne in Hne. now rewrite Hne in Hr.
  - right. now apply IH.
Qed.

(** What an accepted UPDATE by id shows: no row was added or removed; every
    row with another id is still there as it was; when the statement does
    not set the id, the ids in the table are the ones before; and when no
    row holds the id, the table is the one before. *)
Theorem update_by_id :
  forall (t : Table) (now : Z) (rs rs' : list Row) (linkId : string)
         (set : NewLink),
    declared t ->
    update t now rs linkId set = Done rs' ->
    List.length rs' = List.length rs
    /\ (forall r, In r rs -> r_id r <> Some linkId -> In r rs')
    /\ (n_id set = None -> Permutation (map r_id rs') (map r_id rs))
    /\ (holdsId rs linkId = false -> rs' = rs).
Proof.
  intros t now rs rs' linkId set Ht H.
  pose proof (update_shape _ _ _ _ _ _ H) as Hshape.
  split; [|split; [|split]].
  - symmetry. exact (Forall2_length Hshape).
  - exact (rewritten_other_kept _ _ _ _ _ _ Hshape).
  - intro Hset.
    assert (Hsame : map r_id rs' = map r_id rs).
    { clear H. induction Hshape as [|r r' rs rs' Hr _ IH]; cbn; [reflexivity|].
      now rewrite IH, (rewritten_same_id _ _ _ _ _ _ Ht Hset Hr). }
    rewrite Hsame. apply Permutation_refl.
  - intro Habsent. unfold update in H.
    rewrite updateRows_absent in H by now apply holdsId_false.
    now injection H as <-.
Qed.

Lemma update_by_id_witness :
  let set := mkNewLink None None (Some "https://changed.example")
                       None None None in
  let rs' := [ mkRow (Some "id") (Some "uid") (Some "https://changed.example")
                     (Some "my-link") (Some 1000%Z) (Some 1000%Z) ] in
  List.length rs' = List.length (rows myLinkTaken)
  /\ (forall r, In r (rows myLinkTaken) -> r_id r <> Some "id" -> In r rs')
  /\ (n_id set = None
      -> Permutation (map r_id rs') (map r_id (rows myLinkTaken)))
  /\ (holdsId (rows myLinkTaken) "id" = false -> rs' = rows myLinkTaken).
Proof.
  intros set rs'.
  apply (update_by_id links 2000%Z (rows myLinkTaken) rs' "id" set).
  - left. reflexivity.
  - reflexivity.
Defined.

(* ================================================================== *)
(** * 22. Looking a short code up *)
(* ================================================================== *)

Lemma find_app A (f : A -> bool) (xs ys : list A) :
  find f (xs ++ ys) = match find f xs with
                      | Some x => Some x
                      | None => find f ys
                      end.
Proof.
  induction xs as [|x xs IH]; cbn; [reflexivity|].
  destruct (f x); [reflexivity | exact IH].
Qed.

Lemma cellEqb_true c (v : option string) :
  cellEqb String.eqb c v = true <-> v = Some c.
Proof.
  destruct v as [s|]; cbn.
  - rewrite String.eqb_eq. split; [now intros -> | now intros [= ->]].
  - split; discriminate.
Qed.

Lemma findFirst_None rs c :
  findFirstByShortCode rs c = None <-> holdsCode rs c = false.
Proof.
  rewrite holdsCode_false. unfold findFirstByShortCode. split.
  - intros H r Hin. exact (find_none _ _ H r Hin).
  - intro H. induction rs as [|r rs IH]; cbn; [reflexivity|].
    rewrite (H r (or_introl eq_refl)). apply IH.
    intros r' Hin. apply H. now right.
Qed.

(** With pairwise distinct short codes the first match is the only one. *)
Lemma findFirst_unique rs r c :
  NoDup (held (map r_shortCode rs)) ->
  In r rs -> r_shortCode r = Some c ->
  findFirstByShortCode rs c = Some r.
Proof.
  unfold findFirstByShortCode.
  induction rs as [|h rs IH]; intros Hnd Hin Hc; [destruct Hin|].
  cbn. destruct (cellEqb String.eqb c (r_shortCode h)) eqn:Hm.
  - destruct Hin as [-> | Hin]; [reflexivity|].
    apply cellEqb_true in Hm. cbn in Hnd. rewrite Hm in Hnd.
    inversion Hnd as [|? ? Hnotin _]; subst. exfalso. apply Hnotin.
    apply held_In. rewrite <- Hc. now apply in_map.
  - destruct Hin as [-> | Hin].
    + apply cellEqb_true in Hc. congruence.
    + apply IH; auto. cbn in Hnd.
      destruct (r_shortCode h); [now inversion Hnd | exact Hnd].
Qed.

(** Read-back: right after an accepted INSERT, looking up the short code of
    the new row finds that row, and the lookup of every other code gives
    what it gave before. *)
Theorem lookup_after_insert :
  forall (t : Table) (now : Z) (rs rs' : list Row) (v : NewLink) (r : Row),
    declared t ->
    insert t now rs v = Done (rs', r) ->
    exists c,
      r_shortCode r = Some c
      /\ findFirstByShortCode rs' c = Some r
      /\ forall c', c' <> c ->
           findFirstByShortCode rs' c' = findFirstByShortCode rs c'.
Proof.
  intros t now rs rs' v r Ht H. apply insert_Done in H.
  destruct H as (-> & _ & _ & _ & _ & _ & _ & Hlink & _ & Ucode).
  destruct (isLink_declared _ r Ht Hlink) as (i & u & l & c & ca & ua & ->).
  exists c. cbn [r_shortCode] in *. split; [reflexivity|].
  assert (Hfree : holdsCode rs c = false).
  { apply existsb_cellEqb_false.
    exact (checkUnique_Done t (shortCode t) _ c tt Ucode
             (declared_keyed_shortCode _ Ht)). }
  unfold findFirstByShortCode. split.
  - apply findFirst_None in Hfree. unfold findFirstByShortCode in Hfree.
    rewrite find_app, Hfree. cbn. now rewrite String.eqb_refl.
  - intros c' Hne. rewrite find_app.
    destruct (find _ rs); [reflexivity|].
    cbn. apply String.eqb_neq in Hne. now rewrite Hne.
Qed.

Lemma lookup_after_insert_witness :
  exists c,
    r_shortCode (mkRow (Some "k2") (Some "u") (Some "https://a.example")
                       (Some "other") (Some 1000%Z) (Some 1000%Z)) = Some c
    /\ findFirstByShortCode
         (rows myLinkTaken
          ++ [mkRow (Some "k2") (Some "u") (Some "https://a.example")
                    (Some "other") (Some 1000%Z) (Some 1000%Z)]) c
       = Some (mkRow (Some "k2") (Some "u") (Some "https://a.example")
                     (Some "other") (Some 1000%Z) (Some 1000%Z))
    /\ forall c', c' <> c ->
         findFirstByShortCode
           (rows myLinkTaken
            ++ [mkRow (Some "k2") (Some "u") (Some "https://a.example")
                      (Some "other") (Some 1000%Z) (Some 1000%Z)]) c'
         = findFirstByShortCode (rows myLinkTaken) c'.
Proof.
  apply (lookup_after_insert links 1000%Z (rows myLinkTaken) _
           (mkNewLink (Some "k2") (Some "u") (Some "https://a.example")
                      (Some "other") None None)).
  - left. reflexivity.
  - reflexivity.
Defined.

(** On a table reached from the empty one, the lookup of a short code
    returns a row exactly when that row is in the table with that code: at
    most one row is, so the answer does not depend on the order of the
    rows; and it returns nothing exactly when no row holds the code. *)
Theorem lookup_is_unambiguous :
  forall (E : Env) (w : World) (stmts : list Statement) (c : string),
    declared (env_table E) -> rows w = [] ->
    let rs := rows (sendAll E w stmts) in
    (forall r, findFirstByShortCode rs c = Some r
               <-> In r rs /\ r_shortCode r = Some c)
    /\ (findFirstByShortCode rs c = None <-> holdsCode rs c = false).
Proof.
  intros E w stmts c Ht Hw rs. split; [|apply findFirst_None].
  intro r. split.
  - intro H. unfold findFirstByShortCode in H. apply find_some in H.
    destruct H as [Hin Hm]. split; [exact Hin | now apply cellEqb_true].
  - intros [Hin Hc]. apply findFirst_unique; auto.
    destruct (sendAll_reachable_Consistent E w stmts Hw) as [_ _ _ Hcodes].
    exact (Hcodes (declared_keyed_shortCode _ Ht)).
Qed.

Lemma lookup_is_unambiguous_witness :
  findFirstByShortCode (rows myLinkTaken) "nope" = None
  <-> holdsCode (rows myLinkTaken) "nope" = false.
Proof.
  apply (proj2 (lookup_is_unambiguous (exampleEnv links) emptyWorld
                  [Insert (mkNewLink (Some "id") (Some "uid")
                                     (Some "https://example.com")
                                     (Some "my-link") None None)]
                  "nope" (or_introl eq_refl) eq_refl)).
Defined.

(* ================================================================== *)
(** * 23. The two declarations side by side *)
(* ================================================================== *)

(** The one difference between [db/schema.ts] and the migration is the type
    of [short_code]; an INSERT whose short code has at most 20 characters
    cannot tell them apart. *)
Lemma insert_same_declaration now rs v :
  (forall c, n_shortCode v = Some c -> String.length c <= 20) ->
  insert links now rs v = insert links_0000 now rs v.
Proof.
  destruct v as [i u l c oc ou]. cbn [n_shortCode]. intro Hlen.
  assert (Hfit : forall s, c = Some s -> Nat.leb (String.length s) 20 = true).
  { intros s Hs. apply Nat.leb_le. now apply Hlen. }
  destruct c as [s|]; [specialize (Hfit s eq_refl)|];
    destruct i, u, l; unfold insert; cbn; rewrite ?Hfit; reflexivity.
Qed.

Lemma updateRow_same_declaration now set r :
  fits (SqlVarchar 20) (r_shortCode r) ->
  (forall c, n_shortCode set = Some c -> String.length c <= 20) ->
  updateRow links now set r = updateRow links_0000 now set r.
Proof.
  destruct r as [i u l c ca ua], set as [si su sl sc sca sua].
  cbn [r_shortCode n_shortCode fits]. intros Hold Hnew.
  assert (Hfit : forall s, sc = Some s -> Nat.leb (String.length s) 20 = true).
  { intros s Hs. apply Nat.leb_le. now apply Hnew. }
  destruct sc as [s|].
  - specialize (Hfit s eq_refl). unfold updateRow. cbn. now rewrite Hfit.
  - destruct c as [s|]; [|reflexivity].
    apply Nat.leb_le in Hold. unfold updateRow. cbn. now rewrite Hold.
Qed.

Lemma updateRows_same_declaration now linkId set after : forall before,
  Forall (fun r => fits (SqlVarchar 20) (r_shortCode r)) after ->
  (forall c, n_shortCode set = Some c -> String.length c <= 20) ->
  updateRows links now linkId set before after
  = updateRows links_0000 now linkId set before after.
Proof.
  induction after as [|r rest IH]; intros before Hall Hnew; [reflexivity|].
  inversion Hall as [|? ? Hr Hrest]; subst.
  cbn [updateRows].
  destruct (cellEqb String.eqb linkId (r_id r)); [|now apply IH].
  rewrite (updateRow_same_declaration now set r Hr Hnew).
  destruct (updateRow links_0000 now set r) as [r'|e]; [|reflexivity].
  cbn [bind]. rewrite (IH (before ++ [r']) Hrest Hnew). reflexivity.
Qed.

Lemma send_same_declaration E w s :
  Forall (fun r => fits (SqlVarchar 20) (r_shortCode r)) (rows w) ->
  codeWithin 20 s ->
  send (withTable links E) w s = send (withTable links_0000 E) w s.
Proof.
  intros Hall Hs. destruct s as [v|linkId set|linkId]; cbn in Hs; cbn [send].
  - unfold sendInsert. cbn [withTable env_table reachable dbNow].
    rewrite insert_same_declaration; [reflexivity|].
    intros c Hc. now rewrite Hc in Hs.
  - unfold sendUpdate, update. cbn [withTable env_table reachable dbNow].
    rewrite updateRows_same_declaration; [reflexivity | exact Hall |].
    intros c Hc. now rewrite Hc in Hs.
  - reflexivity.
Qed.

(** The drift between [db/schema.ts] ([varchar(20)]) and the migration
    ([text]) is invisible to every client that keeps its short codes within
    20 characters: from an empty table, any such sequence of statements
    leaves the same rows, with the same replies, under both. *)
Theorem declarations_agree_within_20 :
  forall (E : Env) (w : World) (stmts : list Statement),
    rows w = [] ->
    Forall (codeWithin 20) stmts ->
    sendAll (withTable links E) w stmts
    = sendAll (withTable links_0000 E) w stmts.
Proof.
  intros E w stmts Hw Hall.
  assert (Hcons : Consistent links (rows w))
    by (rewrite Hw; apply Consistent_nil).
  clear Hw. revert w Hcons.
  induction Hall as [|s stmts Hs _ IH]; intros w Hcons; [reflexivity|].
  cbn [sendAll fold_left].
  rewrite <- (send_same_declaration E w s (all_fit _ _ Hcons) Hs).
  apply IH.
  exact (send_Consistent (withTable links E) w s Hcons).
Qed.

Lemma declarations_agree_within_20_witness :
  sendAll (withTable links (exampleEnv links)) emptyWorld
          [ Insert (mkNewLink (Some "k1") (Some "u") (Some "https://a.example")
                              (Some "one") None None);
            Update "k1" (mkNewLink None None None (Some "uno") None None);
            Delete "k1" ]
  = sendAll (withTable links_0000 (exampleEnv links)) emptyWorld
            [ Insert (mkNewLink (Some "k1") (Some "u") (Some "https://a.example")
                                (Some "one") None None);
              Update "k1" (mkNewLink None None None (Some "uno") None None);
              Delete "k1" ].
Proof.
  apply (declarations_agree_within_20 (exampleEnv links) emptyWorld).
  - reflexivity.
  - repeat constructor; cbn; lia.
Defined.

Lemma seedLoop_same_declaration E todo : forall w,
  Forall (fun l => String.length (ex_shortCode l) <= 20) todo ->
  seedLoop (withTable links E) todo w
  = seedLoop (withTable links_0000 E) todo w.
Proof.
  induction todo as [|link rest IH]; intros w Hall; [reflexivity|].
  inversion Hall as [|? ? Hl Hrest]; subst.
  cbn [seedLoop seedValues withTable nanoid date ids dates].
  unfold sendInsert. cbn [withTable env_table reachable dbNow rows log].
  rewrite insert_same_declaration by (intros c [= <-]; exact Hl).
  destruct (reachable E _); [|reflexivity].
  destruct (insert links_0000 _ _ _) as [[rs' r]|e]; [|reflexivity].
  now apply IH.
Qed.

(** The seed script does the same under both declarations, whatever the
    table holds and whatever the environment does: same result, same rows,
    same statements. *)
Theorem seed_same_under_both_declarations :
  forall (E : Env) (w : World),
    seedExampleLinks (withTable links E) w
    = seedExampleLinks (withTable links_0000 E) w.
Proof.
  intros E w. apply seedLoop_same_declaration.
  repeat (constructor; [cbn; lia|]). constructor.
Qed.

(* ================================================================== *)
(** * 24. The seed program as a whole *)
(* ================================================================== *)

(** However the loop ends, the rows it has inserted are there, after the
    rows the table had: [k] of them, one for each of the first [k] links,
    and the loop has sent [k] statements and, if it failed, one more. *)
Lemma seedLoop_progress E todo :
  declared (env_table E) ->
  forall w,
    Forall (fun l => String.length (ex_shortCode l) <= maxCodeLength) todo ->
    exists k,
      rows (snd (seedLoop E todo w))
      = rows w ++ seededRows E (ids w) (dates w) (firstn k todo)
      /\ match fst (seedLoop E todo w) with
         | SeedCompleted =>
             k = List.length todo
             /\ List.length (log (snd (seedLoop E todo w)))
                = List.length (log w) + List.length todo
         | SeedFailed _ =>
             k < List.length todo
             /\ List.length (log (snd (seedLoop E todo w)))
                = List.length (log w) + S k
         end.
Proof.
  intro Ht. induction todo as [|link rest IH]; intros w Hall.
  - exists 0. cbn. rewrite app_nil_r. auto.
  - inversion Hall as [|? ? Hl Hrest]; subst.
    pose proof (seed_turn E w link Ht Hl) as Hturn.
    cbn [seedLoop]. destruct (seedValues E w link) as [v w1].
    rewrite Hturn. cbv zeta.
    assert (Hfail : forall (b : bool), b = b ->
              List.length (log w ++ [Insert v]) = List.length (log w) + 1)
      by (intros; now rewrite length_app).
    destruct (reachable E _);
      [destruct (holdsId _ _); [|destruct (holdsCode _ _)]|];
      try (exists 0; cbn; rewrite app_nil_r, length_app; cbn;
           split; [reflexivity | split; lia]).
    match goal with
    | |- context [seedLoop E rest ?w2] => destruct (IH w2 Hrest) as (k & Hk & Hm)
    end.
    cbn [rows log ids dates] in Hk, Hm.
    exists (S k). split.
    + rewrite Hk. cbn [firstn seededRows]. now rewrite <- app_assoc.
    + destruct (fst (seedLoop E rest _));
        destruct Hm as [Hk' Hlog]; rewrite Hlog, length_app; cbn; split; lia.
Qed.

(** The seed function on the list of the script: the rows it leaves are
    the rows it found followed by the rows of the first [k] example links. *)
Lemma seedExampleLinks_progress E w :
  declared (env_table E) ->
  exists k,
    rows (snd (seedExampleLinks E w))
    = rows w ++ seededRows E (ids w) (dates w) (firstn k exampleLinks)
    /\ match fst (seedExampleLinks E w) with
       | SeedCompleted =>
           k = 10
           /\ List.length (log (snd (seedExampleLinks E w)))
              = List.length (log w) + 10
       | SeedFailed _ =>
           k < 10
           /\ List.length (log (snd (seedExampleLinks E w)))
              = List.length (log w) + S k
       end.
Proof.
  intro Ht.
  destruct (seedLoop_progress E exampleLinks Ht w) as (k & Hrows & Hm).
  { unfold maxCodeLength. repeat (constructor; [cbn; lia|]). constructor. }
  exists k. unfold seedExampleLinks. split; [exact Hrows|].
  destruct (fst (seedLoop E exampleLinks w)); exact Hm.
Qed.

(** The exit wrapper changes nothing in the store, and exits with 0 exactly
    when the seed function completed. *)
Lemma seedMain_world E w : snd (seedMain E w) = snd (seedExampleLinks E w).
Proof.
  unfold seedMain. now destruct (seedExampleLinks E w) as [[|err] w'].
Qed.

Lemma seedMain_zero E w :
  fst (seedMain E w) = 0 -> fst (seedExampleLinks E w) = SeedCompleted.
Proof.
  unfold seedMain. destruct (seedExampleLinks E w) as [[|err] w'];
    cbn; [reflexivity | discriminate].
Qed.

(** The outcome of the seed program: exit code 0 with exactly the 10 rows of
    [exampleLinks] added after 10 statements, or exit code 1 with the rows
    of the first [k < 10] links added (nothing is rolled back) after
    [k + 1] statements.  The rows the table had are untouched either way. *)
Theorem seed_keeps_what_it_inserted :
  forall (E : Env) (w : World),
    declared (env_table E) ->
    exists k,
      rows (snd (seedMain E w))
      = rows w ++ seededRows E (ids w) (dates w) (firstn k exampleLinks)
      /\ ((fst (seedMain E w) = 0 /\ k = 10
           /\ List.length (log (snd (seedMain E w)))
              = List.length (log w) + 10)
          \/ (fst (seedMain E w) = 1 /\ k < 10
              /\ List.length (log (snd (seedMain E w)))
                 = List.length (log w) + S k)).
Proof.
  intros E w Ht.
  destruct (seedExampleLinks_progress E w Ht) as (k & Hrows & Hm).
  exists k. rewrite seedMain_world. split; [exact Hrows|].
  unfold seedMain.
  destruct (seedExampleLinks E w) as [[|err] w']; cbn [fst snd] in *;
    [left | right]; tauto.
Qed.

Lemma seed_keeps_what_it_inserted_witness :
  exists k,
    rows (snd (seedMain (exampleEnv links) twoTaken))
    = rows twoTaken
      ++ seededRows (exampleEnv links) (ids twoTaken) (dates twoTaken)
                    (firstn k exampleLinks)
    /\ ((fst (seedMain (exampleEnv links) twoTaken) = 0 /\ k = 10
         /\ List.length (log (snd (seedMain (exampleEnv links) twoTaken)))
            = List.length (log twoTaken) + 10)
        \/ (fst (seedMain (exampleEnv links) twoTaken) = 1 /\ k < 10
            /\ List.length (log (snd (seedMain (exampleEnv links) twoTaken)))
               = List.length (log twoTaken) + S k)).
Proof.
  apply (seed_keeps_what_it_inserted (exampleEnv links) twoTaken).
  left. reflexivity.
Defined.

(** On a table that holds the first short code of [exampleLinks], reached
    with a fresh id, the loop stops at its first INSERT. *)
Lemma seed_on_seeded_table E w :
  declared (env_table E) ->
  holdsCode (rows w) "react-gh" = true ->
  reachable E (List.length (log w)) = true ->
  holdsId (rows w) (nanoid E (ids w)) = false ->
  fst (seedExampleLinks E w)
  = SeedFailed (Refused (UniqueViolation "links_short_code_unique"))
  /\ rows (snd (seedExampleLinks E w)) = rows w
  /\ List.length (log (snd (seedExampleLinks E w))) = S (List.length (log w)).
Proof.
  intros Ht Hheld Hreach Hid. unfold seedExampleLinks, exampleLinks.
  cbn [seedLoop].
  pose proof (seed_turn E w (mkExample "https://github.com/facebook/react"
                                       "react-gh") Ht) as Hturn.
  destruct (seedValues E w _) as [v w1].
  rewrite Hturn by (cbn; unfold maxCodeLength; lia).
  cbv zeta. cbn [ex_shortCode]. rewrite Hreach, Hid, Hheld. cbn.
  rewrite length_app. cbn. repeat split. lia.
Qed.

(** The seed is not idempotent: after a run that completed on an empty
    table, a second run (store reachable, fresh id) fails at its first
    INSERT on the unique short code, exits with 1 and adds no row. *)
Theorem seed_twice_fails :
  forall (E : Env) (w : World),
    declared (env_table E) -> rows w = [] ->
    fst (seedMain E w) = 0 ->
    let w1 := snd (seedMain E w) in
    reachable E (List.length (log w1)) = true ->
    holdsId (rows w1) (nanoid E (ids w1)) = false ->
    fst (seedMain E w1) = 1
    /\ fst (seedExampleLinks E w1)
       = SeedFailed (Refused (UniqueViolation "links_short_code_unique"))
    /\ rows (snd (seedMain E w1)) = rows w1
    /\ List.length (rows w1) = 10
    /\ List.length (log (snd (seedMain E w1))) = S (List.length (log w1)).
Proof.
  intros E w Ht Hw Hzero w1 Hreach Hid.
  destruct (seedExampleLinks_progress E w Ht) as (k & Hrows & Hk).
  rewrite (seedMain_zero E w Hzero) in Hk. destruct Hk as [-> _].
  rewrite <- seedMain_world in Hrows. fold w1 in Hrows.
  rewrite Hw in Hrows. cbn [app firstn exampleLinks seededRows] in Hrows.
  assert (Hheld : holdsCode (rows w1) "react-gh" = true)
    by (rewrite Hrows; reflexivity).
  destruct (seed_on_seeded_table E w1 Ht Hheld Hreach Hid) as (Hf & Hr & Hl).
  unfold seedMain. destruct (seedExampleLinks E w1) as [[|err] w2];
    cbn [fst snd] in *; [discriminate Hf|].
  repeat split; auto. now rewrite Hrows.
Qed.

Lemma seed_twice_fails_witness :
  let E := exampleEnv links in
  let w1 := snd (seedMain E emptyWorld) in
  fst (seedMain E w1) = 1
  /\ fst (seedExampleLinks E w1)
     = SeedFailed (Refused (UniqueViolation "links_short_code_unique"))
  /\ rows (snd (seedMain E w1)) = rows w1
  /\ List.length (rows w1) = 10
  /\ List.length (log (snd (seedMain E w1))) = S (List.length (log w1)).
Proof.
  apply (seed_twice_fails (exampleEnv links) emptyWorld).
  - left. reflexivity.
  - reflexivity.
  - reflexivity.
  - reflexivity.
  - reflexivity.
Defined.




Lemma findFirst_seededRows E todo :
  NoDup (map ex_shortCode todo) ->
  forall i d link,
    In link todo ->
    exists r,
      findFirstByShortCode (seededRows E i d todo) (ex_shortCode link) = Some r
      /\ r_url r = Some (ex_url link)
      /\ r_userId r = Some seedUserId.
Proof.
  unfold findFirstByShortCode.
  induction todo as [|h rest IH]; intros Hnd i d link Hin; [destruct Hin|].
  inversion Hnd as [|? ? Hnotin Hrest]; subst.
  cbn [seededRows find r_shortCode cellEqb].
  destruct Hin as [-> | Hin].
  - rewrite String.eqb_refl. eexists. repeat split.
  - assert (Hne : String.eqb (ex_shortCode link) (ex_shortCode h) = false).
    { apply String.eqb_neq. intro Heq. apply Hnotin. rewrite <- Heq.
      now apply in_map. }
    rewrite Hne. now apply IH.
Qed.

(** After a run of the seed that completed on an empty table, every short
    code of [exampleLinks] resolves: its lookup finds a row of the seed user
    with the URL listed for that code. *)
Theorem seeded_links_resolve :
  forall (E : Env) (w : World) (link : ExampleLink),
    declared (env_table E) -> rows w = [] ->
    fst (seedMain E w) = 0 ->
    In link exampleLinks ->
    exists r,
      findFirstByShortCode (rows (snd (seedMain E w))) (ex_shortCode link)
      = Some r
      /\ r_url r = Some (ex_url link)
      /\ r_userId r = Some seedUserId.
Proof.
  intros E w link Ht Hw Hzero Hin.
  destruct (seedExampleLinks_progress E w Ht) as (k & Hrows & Hk).
  rewrite (seedMain_zero E w Hzero) in Hk. destruct Hk as [-> _].
  rewrite seedMain_world, Hrows, Hw. cbn [app]. change (firstn 10 exampleLinks) with exampleLinks.
  apply findFirst_seededRows; [exact exampleLinks_codes_distinct | exact Hin].
Qed.

Lemma seeded_links_resolve_witness :
  exists r,
    findFirstByShortCode (rows (snd (seedMain (exampleEnv links) emptyWorld)))
                         "neon-intro" = Some r
    /\ r_url r = Some "https://neon.tech/docs/introduction"
    /\ r_userId r = Some seedUserId.
Proof.
  apply (seeded_links_resolve (exampleEnv links) emptyWorld
           (mkExample "https://neon.tech/docs/introduction" "neon-intro")).
  - left. reflexivity.
  - reflexivity.
  - reflexivity.
  - cbn. auto 10.
Defined.
